(** * AIpixelboard: the pixel-grid editing core

    A shallow embedding of [src/types.ts], [src/utils/pixelUtils.ts], the
    drawing callbacks of [src/components/Canvas.tsx] and the frame handlers of
    the application component, together with the properties of them that the
    specification states.

    Conventions of the embedding.
    - A JavaScript [number] that holds a grid coordinate, an array index or a
      clock reading is an integer [Z]; all of them stay far below 2^53, where
      the double arithmetic of the source is exact.
    - A JavaScript array is a list of slots; a slot is [None] where the array
      has a hole (reading it gives [undefined]) and [Some v] otherwise.
    - A [while] loop whose exit is not structural takes a [fuel : nat] and
      answers [None] when the fuel runs out; the theorems give the fuel that
      suffices. *)

From stdpp Require Import gmap strings list pretty.
From Stdlib Require Import ZArith Lia Ascii.

Local Open Scope Z_scope.

#[local] Set Warnings "-clear-no-such-hyp".

(** ** [src/types.ts] *)

Inductive ToolType := pencil | eraser | bucket | picker | move.

Record Point := mkPoint { x : Z; y : Z }.

Record Size := mkSize { width : Z; height : Z }.

Global Instance Point_eq_dec : EqDecision Point.
Proof. solve_decision. Defined.

Global Instance ToolType_eq_dec : EqDecision ToolType.
Proof. solve_decision. Defined.

(** [PixelGrid = string[]]: the flat array of colours. *)
Abbreviation PixelGrid := (list (option string)).

(** ** JavaScript array access *)

Module JsArray.

(** [a[i]] as an rvalue: [undefined] (here [None]) outside the array and at a
    hole. *)
Definition get {A} (a : list (option A)) (i : Z) : option A :=
  if decide (0 <= i) then mjoin (a !! Z.to_nat i) else None.

(** [a[i] = v]: overwrites inside the array; at or past the end the array
    grows to length [i + 1] and the slots in between are holes.  A negative
    [i] would store a named property and leave the elements alone; the two
    assignments of the source never come with one: [drawPixel] assigns at the
    index of a canvas point ([drawPixel_index_range]) and [floodFill] where a
    read just gave a colour ([get_Some_range]). *)
Definition set {A} (a : list (option A)) (i : Z) (v : A) : list (option A) :=
  if decide (i < 0) then a
  else if decide (i < Z.of_nat (length a)) then <[Z.to_nat i := Some v]> a
  else a ++ replicate (Z.to_nat i - length a)%nat None ++ [Some v].

(** [[...a]]: a new array with the same elements. *)
Definition spread {A} (a : list (option A)) : list (option A) := a.

End JsArray.

(** ** [src/utils/pixelUtils.ts] *)

Definition getIndex (x y width : Z) : Z := y * width + x.

(** [%] is the truncating remainder of JavaScript; [Math.floor(index / width)]
    is the floor quotient.  Meant for [width <> 0] (the source gives [NaN]
    and an infinity for a zero width). *)
Definition getCoords (index width : Z) : Point :=
  {| x := Z.rem index width; y := index / width |}.

(** *** Bresenham's line algorithm *)

Section LineLoop.

(** The constants that the loop of [getLinePixels] closes over. *)
Variables (x1 y1 dx dy sx sy : Z).

(** One pass of [while (true)] per unit of fuel; [points.push(p)] appends. *)
Fixpoint lineLoop (fuel : nat) (points : list Point) (x0 y0 err : Z)
  : option (list Point) :=
  match fuel with
  | O => None
  | S fuel' =>
    let points := points ++ [mkPoint x0 y0] in
    if bool_decide (x0 = x1) && bool_decide (y0 = y1) then Some points
    else
      let e2 := 2 * err in
      let '(err, x0) :=
        if bool_decide (e2 > - dy) then (err - dy, x0 + sx) else (err, x0) in
      let '(err, y0) :=
        if bool_decide (e2 < dx) then (err + dx, y0 + sy) else (err, y0) in
      lineLoop fuel' points x0 y0 err
  end.

(** The state after one pass that did not leave the loop. *)
Definition lineNext (x0 y0 err : Z) : Z * Z * Z :=
  let e2 := 2 * err in
  let '(err, x0) :=
    if bool_decide (e2 > - dy) then (err - dy, x0 + sx) else (err, x0) in
  let '(err, y0) :=
    if bool_decide (e2 < dx) then (err + dx, y0 + sy) else (err, y0) in
  (x0, y0, err).

End LineLoop.

Definition getLinePixels (fuel : nat) (start end_ : Point) : option (list Point) :=
  let x0 := x start in
  let y0 := y start in
  let x1 := x end_ in
  let y1 := y end_ in
  let dx := Z.abs (x1 - x0) in
  let dy := Z.abs (y1 - y0) in
  let sx := if bool_decide (x0 < x1) then 1 else -1 in
  let sy := if bool_decide (y0 < y1) then 1 else -1 in
  let err := dx - dy in
  lineLoop x1 y1 dx dy sx sy fuel [] x0 y0 err.

(** *** Flood fill *)

Section FloodLoop.

(** The constants that the loop of [floodFill] closes over. *)
Variables (targetColor fillColor : string) (w h : Z).

Definition neighbors (p : Point) : list Point :=
  [ mkPoint (x p + 1) (y p); mkPoint (x p - 1) (y p);
    mkPoint (x p) (y p + 1); mkPoint (x p) (y p - 1) ].

(** [n.x >= 0 && n.x < width && n.y >= 0 && n.y < height] *)
Definition inGrid (n : Point) : bool :=
  bool_decide (x n >= 0) && bool_decide (x n < w)
  && bool_decide (y n >= 0) && bool_decide (y n < h).

(** [for (const n of neighbors) if (...) queue.push(n)] *)
Definition pushNeighbors (p : Point) (queue : list Point) : list Point :=
  fold_left (fun q n => if inGrid n then n :: q else q) (neighbors p) queue.

(** One pass of [while (queue.length > 0)] per unit of fuel.  The array
    [queue] is used as a stack; the list holds it last element first, so
    that [queue.pop()] takes the head and [queue.push(n)] conses. *)
Fixpoint floodLoop (fuel : nat) (newPixels : PixelGrid) (queue : list Point)
    (visited : gset Z) {struct fuel} : option PixelGrid :=
  match queue with
  | [] => Some newPixels
  | p :: queue =>
    match fuel with
    | O => None
    | S fuel' =>
      let idx := getIndex (x p) (y p) w in
      if decide (idx ∈ visited) then floodLoop fuel' newPixels queue visited
      else
        let visited := {[ idx ]} ∪ visited in
        if bool_decide (JsArray.get newPixels idx = Some targetColor) then
          let newPixels := JsArray.set newPixels idx fillColor in
          floodLoop fuel' newPixels (pushNeighbors p queue) visited
        else floodLoop fuel' newPixels queue visited
    end
  end.

End FloodLoop.

Definition floodFill (fuel : nat) (pixels : PixelGrid) (start : Point)
    (targetColor fillColor : string) (size : Size) : option PixelGrid :=
  let width := width size in
  let height := height size in
  let startIndex := getIndex (x start) (y start) width in
  if bool_decide (startIndex < 0)
     || bool_decide (startIndex >= Z.of_nat (length pixels)) then Some pixels
  else if bool_decide (JsArray.get pixels startIndex = Some fillColor) then Some pixels
  else if bool_decide (JsArray.get pixels startIndex ≠ Some targetColor) then Some pixels
  else
    let newPixels := JsArray.spread pixels in
    floodLoop targetColor fillColor width height fuel newPixels [start] ∅.

(** ** [src/components/Canvas.tsx] *)

Definition drawPixel (tool : ToolType) (color : string) (size : Size)
    (point : Point) (currentPixels : PixelGrid) : PixelGrid :=
  if bool_decide (x point < 0) || bool_decide (x point >= width size)
     || bool_decide (y point < 0) || bool_decide (y point >= height size)
  then currentPixels
  else
    let idx := getIndex (x point) (y point) (width size) in
    let newPixels := JsArray.spread currentPixels in
    match tool with
    | pencil => JsArray.set newPixels idx color
    | eraser => JsArray.set newPixels idx "transparent"
    | _ => newPixels
    end.

(** The drawing branch of [handlePointerMove] ([isDrawing] with a
    [lastDrawPoint]); [point] is the grid point of the pointer event and the
    result is the grid handed to [onDraw]. *)
Definition handlePointerMove_draw (fuel : nat) (tool : ToolType) (color : string)
    (size : Size) (pixels : PixelGrid) (lastDrawPoint point : Point)
    : option PixelGrid :=
  linePoints ← getLinePixels fuel lastDrawPoint point;
  let tempPixels := JsArray.spread pixels in
  Some (fold_left (fun tempPixels p => drawPixel tool color size p tempPixels)
          linePoints tempPixels).

(** ** The application component: frames and playback

    Pixel arrays are objects: a frame holds a reference to its array, and the
    arrays live in a store.  The frame handlers are transitions of the state
    [frames], [currentFrameIdx] (with [size] and the store); a handler that
    would throw answers [None]. *)

Module App.

Definition loc := positive.

Record Frame := mkFrame { id : string; pixels : loc }.

Record State := mkState {
  heap : gmap loc PixelGrid;
  size : Size;
  frames : list Frame;
  currentFrameIdx : Z
}.

(** A new array object holding [a]. *)
Definition alloc (hp : gmap loc PixelGrid) (a : PixelGrid)
  : loc * gmap loc PixelGrid :=
  let l := fresh (dom hp) in (l, <[l := a]> hp).

(** The elements of the array behind a reference. *)
Definition contents (hp : gmap loc PixelGrid) (l : loc) : PixelGrid :=
  default [] (hp !! l).

(** [a[i] = v] on the array object behind [l], in place. *)
Definition store (hp : gmap loc PixelGrid) (l : loc) (i : Z) (v : string)
  : gmap loc PixelGrid :=
  alter (fun a => JsArray.set a i v) l hp.

(** [Array(width * height).fill('transparent')]; [Array(n)] throws a
    RangeError unless [0 <= n < 2^32]. *)
Definition createEmptyGrid (width height : Z) : option PixelGrid :=
  let n := width * height in
  if bool_decide (0 <= n < 2 ^ 32)
  then Some (replicate (Z.to_nat n) (Some "transparent"))
  else None.

(** [a.splice(start, 0, item)] *)
Definition splice_insert {A} (a : list A) (start : Z) (item : A) : list A :=
  let len := Z.of_nat (length a) in
  let k := if bool_decide (start < 0) then Z.max (len + start) 0
           else Z.min start len in
  take (Z.to_nat k) a ++ item :: drop (Z.to_nat k) a.

(** [a.filter((e, i) => f e i)], the index starting from [i]. *)
Fixpoint filter_from {A} (f : A → Z → bool) (i : Z) (a : list A) : list A :=
  match a with
  | [] => []
  | e :: a' =>
    if f e i then e :: filter_from f (i + 1) a' else filter_from f (i + 1) a'
  end.

(** [`frame-${now}`] for the clock reading [now = Date.now()]. *)
Definition frameId (now : Z) : string := "frame-" +:+ pretty now.

(** [INITIAL_FRAME_ID] of [src/constants.ts]. *)
Definition INITIAL_FRAME_ID : string := "frame-0".
Definition DEFAULT_SIZE : Z := 32.

(** The state the component starts in: one frame [frame-0] with the empty
    32x32 grid ([createEmptyGrid] returns it, see [createEmptyGrid_default]). *)
Definition initial : State :=
  let grid := default [] (createEmptyGrid DEFAULT_SIZE DEFAULT_SIZE) in
  let '(l, hp) := alloc ∅ grid in
  {| heap := hp; size := mkSize DEFAULT_SIZE DEFAULT_SIZE;
     frames := [ {| id := INITIAL_FRAME_ID; pixels := l |} ];
     currentFrameIdx := 0 |}.

(** The callback of the animation interval:
    [setCurrentFrameIdx(current => (current + 1) % frames.length)]. *)
Definition tick (s : State) : State :=
  {| heap := heap s; size := size s; frames := frames s;
     currentFrameIdx :=
       Z.rem (currentFrameIdx s + 1) (Z.of_nat (length (frames s))) |}.

(** [newPixels] is the array that the canvas hands to [onDraw].  When
    [currentFrameIdx] is not an index of [frames] the assignment would store
    an object without [id], which is no [Frame]; the model stops there. *)
Definition handleUpdatePixels (newPixels : loc) (s : State) : option State :=
  if decide (0 <= currentFrameIdx s) then
    let k := Z.to_nat (currentFrameIdx s) in
    old ← frames s !! k;
    Some {| heap := heap s; size := size s;
            frames := <[k := {| id := id old; pixels := newPixels |}]> (frames s);
            currentFrameIdx := currentFrameIdx s |}
  else None.

Definition handleAddFrame (now : Z) (s : State) : option State :=
  grid ← createEmptyGrid (width (size s)) (height (size s));
  let '(l, hp) := alloc (heap s) grid in
  let newFrame := {| id := frameId now; pixels := l |} in
  let newFrames := splice_insert (frames s) (currentFrameIdx s + 1) newFrame in
  Some {| heap := hp; size := size s; frames := newFrames;
          currentFrameIdx := currentFrameIdx s + 1 |}.

(** [frames[currentFrameIdx]] is [undefined] outside the array, and
    [current.pixels] then throws. *)
Definition handleDuplicateFrame (now : Z) (s : State) : option State :=
  current ← (if decide (0 <= currentFrameIdx s)
             then frames s !! Z.to_nat (currentFrameIdx s) else None);
  let '(l, hp) :=
    alloc (heap s) (JsArray.spread (contents (heap s) (pixels current))) in
  let newFrame := {| id := frameId now; pixels := l |} in
  let newFrames := splice_insert (frames s) (currentFrameIdx s + 1) newFrame in
  Some {| heap := hp; size := size s; frames := newFrames;
          currentFrameIdx := currentFrameIdx s + 1 |}.

Definition handleDeleteFrame (s : State) : State :=
  if bool_decide (length (frames s) ≤ 1)%nat then s
  else
    let newFrames :=
      filter_from (fun _ i => bool_decide (i ≠ currentFrameIdx s)) 0 (frames s) in
    {| heap := heap s; size := size s; frames := newFrames;
       currentFrameIdx := Z.max 0 (currentFrameIdx s - 1) |}.

(** A pencil or eraser click on the canvas showing the current frame:
    [onDraw(drawPixel(point, pixels))] with [onDraw = handleUpdatePixels]. *)
Definition drawOnCurrent (tool : ToolType) (color : string) (point : Point)
    (s : State) : option State :=
  current ← (if decide (0 <= currentFrameIdx s)
             then frames s !! Z.to_nat (currentFrameIdx s) else None);
  let '(l, hp) :=
    alloc (heap s)
      (drawPixel tool color (size s) point (contents (heap s) (pixels current))) in
  handleUpdatePixels l
    {| heap := hp; size := size s; frames := frames s;
       currentFrameIdx := currentFrameIdx s |}.

(** The user actions on the timeline and the interval callback. *)
Inductive Action :=
| AddFrame (now : Z)
| DuplicateFrame (now : Z)
| DeleteFrame
| Tick
| Draw (tool : ToolType) (color : string) (point : Point).

Definition step (a : Action) (s : State) : option State :=
  match a with
  | AddFrame now => handleAddFrame now s
  | DuplicateFrame now => handleDuplicateFrame now s
  | DeleteFrame => Some (handleDeleteFrame s)
  | Tick => Some (tick s)
  | Draw tool color point => drawOnCurrent tool color point s
  end.

Fixpoint run (acts : list Action) (s : State) : option State :=
  match acts with
  | [] => Some s
  | a :: acts' => s' ← step a s; run acts' s'
  end.

(** The clock readings that a run takes, in order. *)
Fixpoint clocks (acts : list Action) : list Z :=
  match acts with
  | [] => []
  | AddFrame now :: acts' | DuplicateFrame now :: acts' => now :: clocks acts'
  | _ :: acts' => clocks acts'
  end.

(** Each reading is later than the one before, the first later than [b]. *)
Fixpoint advancing (b : Z) (ts : list Z) : Prop :=
  match ts with
  | [] => True
  | t :: ts' => b < t ∧ advancing t ts'
  end.

(** The ids of the frames, in sequence order. *)
Definition ids (s : State) : list string := id <$> frames s.

(** The frame-sequence invariant. *)
Definition invariant (s : State) : Prop :=
  (1 ≤ length (frames s))%nat
  ∧ 0 <= currentFrameIdx s < Z.of_nat (length (frames s)).

(** [l] is not the reference of an array of the state. *)
Definition hp_fresh_loc (s : State) (l : loc) : Prop := l ∉ dom (heap s).

(** Every frame refers to an array of the store. *)
Definition store_ok (s : State) : Prop :=
  ∀ f, f ∈ frames s → is_Some (heap s !! pixels f).

End App.

(** ** Vocabulary of the statements *)

(** Two consecutive points of a raster line: different, and at most one step
    apart on each axis (8-connected). *)
Definition step8 (p q : Point) : Prop :=
  p ≠ q ∧ Z.abs (x q - x p) <= 1 ∧ Z.abs (y q - y p) <= 1.

Fixpoint chain8 (l : list Point) : Prop :=
  match l with
  | p :: (q :: _) as l' => step8 p q ∧ chain8 l'
  | _ => True
  end.

(** The colour that a stroke of the tool leaves. *)
Definition paint (tool : ToolType) (color : string) : string :=
  match tool with
  | eraser => "transparent"
  | _ => color
  end.

(** A point of the canvas. *)
Definition inBounds (size : Size) (p : Point) : Prop :=
  0 <= x p < width size ∧ 0 <= y p < height size.

(** The colour stored for a point. *)
Definition pixelAt (size : Size) (g : PixelGrid) (p : Point) : option string :=
  JsArray.get g (getIndex (x p) (y p) (width size)).

(** One step north, east, south or west. *)
Definition adjacent4 (p q : Point) : Prop :=
  q ∈ neighbors p.

(** The points that flood fill is to reach: the start, and every canvas point
    of the target colour next to a reached point. *)
Inductive reachable (size : Size) (g : PixelGrid) (target : string) (start : Point)
  : Point → Prop :=
| reachable_start : reachable size g target start start
| reachable_step p q :
    reachable size g target start p →
    adjacent4 p q → inBounds size q → pixelAt size g q = Some target →
    reachable size g target start q.

(** What a finished run of the line loop towards [(x1, y1)] looks like from a
    state [(x0, y0)] that is [n] passes away. *)
Definition lineRun (x1 y1 : Z) (n : nat) (x0 y0 : Z) (l : list Point) : Prop :=
  length l = S n
  ∧ head l = Some (mkPoint x0 y0)
  ∧ last l = Some (mkPoint x1 y1)
  ∧ chain8 l.

(** The number of unit steps between two points along the longer axis. *)
Definition lineSteps (start end_ : Point) : Z :=
  Z.max (Z.abs (x end_ - x start)) (Z.abs (y end_ - y start)).

(** The point reflection that exchanges [start] and [end_]. *)
Definition reflect (start end_ p : Point) : Point :=
  mkPoint (x start + x end_ - x p) (y start + y end_ - y p).

(** [drawPixel] run over the points of a line, as [handlePointerMove] does. *)
Definition strokeOver (tool : ToolType) (color : string) (size : Size)
    (line : list Point) (g : PixelGrid) : PixelGrid :=
  fold_left (fun tempPixels p => drawPixel tool color size p tempPixels) line g.

(** The indices of the canvas. *)
Definition gridIndices (w h : Z) : gset Z :=
  list_to_set (Z.of_nat <$> seq 0 (Z.to_nat (w * h))).

(** Fuel that lets the flood loop finish from any start. *)
Definition floodFuel (w h : Z) : nat := 4 * (Z.to_nat (w * h) + 1) + 1.

(** A grid that differs from [g0] only where [g0] had the target colour [T]
    and the grid has the fill colour [F]. *)
Definition retouched (T F : string) (g0 cur : PixelGrid) : Prop :=
  length cur = length g0
  ∧ ∀ i, JsArray.get cur i = JsArray.get g0 i
         ∨ (JsArray.get g0 i = Some T ∧ JsArray.get cur i = Some F).

(** The state of the flood loop on the grid [g0]: the cells filled so far are
    the visited cells of the target colour; everything queued or visited of
    the target colour is reachable; the neighbours of a filled cell are visited
    or queued. *)
Record floodInv (T F : string) (w h : Z) (g0 : PixelGrid) (start : Point)
    (cur : PixelGrid) (queue : list Point) (visited : gset Z) : Prop := {
  inv_cells : ∀ i,
    JsArray.get cur i
    = if decide (i ∈ visited ∧ JsArray.get g0 i = Some T) then Some F
      else JsArray.get g0 i;
  inv_queue : ∀ q, q ∈ queue →
    inBounds (mkSize w h) q
    ∧ (JsArray.get g0 (getIndex (x q) (y q) w) = Some T →
       reachable (mkSize w h) g0 T start q);
  inv_visited : ∀ i, i ∈ visited →
    ∃ p, inBounds (mkSize w h) p ∧ getIndex (x p) (y p) w = i
         ∧ (JsArray.get g0 i = Some T → reachable (mkSize w h) g0 T start p);
  inv_closed : ∀ p q,
    inBounds (mkSize w h) p → getIndex (x p) (y p) w ∈ visited →
    JsArray.get g0 (getIndex (x p) (y p) w) = Some T →
    adjacent4 p q → inBounds (mkSize w h) q →
    getIndex (x q) (y q) w ∈ visited ∨ q ∈ queue;
  inv_start : getIndex (x start) (y start) w ∈ visited ∨ start ∈ queue
}.

(** The uniform 3x3 grid of the colour [A]. *)
Definition uniform33 (A : string) : PixelGrid := replicate 9 (Some A).

(** Rows [A C A], [A A C], [C C C]: the cell (2,0) touches the region of
    (0,0) only at the corner of (1,1). *)
Definition corner33 (A C : string) : PixelGrid :=
  [ Some A; Some C; Some A;
    Some A; Some A; Some C;
    Some C; Some C; Some C ].


(** ** Further code of the repository *)

(** *** [hexToRgb] of [src/utils/pixelUtils.ts] *)

Module Hex.





End Hex.

(** *** The pointer handlers of [src/components/Canvas.tsx] *)

Module Canvas.

(** [value || 'transparent'] for a pixel read: [undefined] and the empty
    string are falsy. *)
Definition orTransparent (v : option string) : string :=
  match v with
  | Some c => if bool_decide (c = "") then "transparent" else c
  | None => "transparent"
  end.

(** [picked && picked !== 'transparent'] *)
Definition opaque (v : option string) : bool :=
  match v with
  | Some c => bool_decide (c ≠ "") && bool_decide (c ≠ "transparent")
  | None => false
  end.

(** What a handler tells the parent component. *)
Inductive Output :=
| Nothing
| OnDraw (newPixels : PixelGrid)
| OnPickColor (picked : string).

(** The props that the handlers read. *)
Record Props := mkProps {
  size : Size;
  pixels : PixelGrid;
  tool : ToolType;
  color : string
}.

Section Screen.

(** Screen coordinates ([clientX], [clientY], the pan offset) and their
    addition and subtraction stay abstract. *)
Variable Num : Type.
Variables (plus minus : Num → Num → Num).

(** The interaction state of the component. *)
Record State := mkState {
  isDrawing : bool;
  isPanning : bool;
  lastDrawPoint : option Point;
  dragStart : option (Num * Num);
  pan : Num * Num
}.

(** [point] is [getGridPoint(e.clientX, e.clientY)]; the container ref is
    mounted. *)
Definition handlePointerDown (fuel : nat) (props : Props) (button : Z)
    (clientX clientY : Num) (point : Point) (st : State)
    : option (State * Output) :=
  if bool_decide (button = 1) || bool_decide (tool props = move) then
    Some ({| isDrawing := isDrawing st; isPanning := true;
             lastDrawPoint := lastDrawPoint st;
             dragStart := Some (clientX, clientY); pan := pan st |}, Nothing)
  else if bool_decide (button = 0) then
    if inGrid (width (size props)) (height (size props)) point then
      let drawing b :=
        {| isDrawing := b; isPanning := isPanning st;
           lastDrawPoint := Some point;
           dragStart := dragStart st; pan := pan st |} in
      let idx := getIndex (x point) (y point) (width (size props)) in
      match tool props with
      | bucket =>
        let targetColor := orTransparent (JsArray.get (pixels props) idx) in
        if bool_decide (targetColor ≠ color props) then
          filled ← floodFill fuel (pixels props) point targetColor
                     (color props) (size props);
          Some (drawing false, OnDraw filled)
        else Some (drawing false, Nothing)
      | picker =>
        let picked := JsArray.get (pixels props) idx in
        if opaque picked
        then Some (drawing false, OnPickColor (default "" picked))
        else Some (drawing false, Nothing)
      | _ =>
        Some (drawing true,
              OnDraw (drawPixel (tool props) (color props) (size props) point
                        (pixels props)))
      end
    else Some (st, Nothing)
  else Some (st, Nothing).

Definition handlePointerMove (fuel : nat) (props : Props)
    (clientX clientY : Num) (point : Point) (st : State)
    : option (State * Output) :=
  match isPanning st, dragStart st with
  | true, Some (startX, startY) =>
    let dx := minus clientX startX in
    let dy := minus clientY startY in
    Some ({| isDrawing := isDrawing st; isPanning := isPanning st;
             lastDrawPoint := lastDrawPoint st;
             dragStart := Some (clientX, clientY);
             pan := (plus (pan st).1 dx, plus (pan st).2 dy) |}, Nothing)
  | _, _ =>
    match isDrawing st, lastDrawPoint st with
    | true, Some last =>
      tempPixels ← handlePointerMove_draw fuel (tool props) (color props)
                     (size props) (pixels props) last point;
      Some ({| isDrawing := isDrawing st; isPanning := isPanning st;
               lastDrawPoint := Some point;
               dragStart := dragStart st; pan := pan st |}, OnDraw tempPixels)
    | _, _ => Some (st, Nothing)
    end
  end.

Definition handlePointerUp (st : State) : State :=
  {| isDrawing := false; isPanning := false; lastDrawPoint := None;
     dragStart := None; pan := pan st |}.

(** The state before any pointer event. *)
Definition idle (pan0 : Num * Num) : State :=
  {| isDrawing := false; isPanning := false; lastDrawPoint := None;
     dragStart := None; pan := pan0 |}.

(** A state in which a pointer move does nothing. *)
Definition inert (st : State) : Prop :=
  isPanning st = false ∧ isDrawing st = false.

(** The parent stores the grid of [onDraw] in the current frame and the
    colour of [onPickColor] as the active colour; both come back as props. *)
Definition feed (props : Props) (out : Output) : Props :=
  match out with
  | Nothing => props
  | OnDraw newPixels =>
    {| size := size props; pixels := newPixels; tool := tool props;
       color := color props |}
  | OnPickColor picked =>
    {| size := size props; pixels := pixels props; tool := tool props;
       color := picked |}
  end.

(** Pointer moves to the given positions, one after the other. *)
Fixpoint moves (fuel : nat) (props : Props) (st : State)
    (targets : list (Num * Num * Point)) : option (State * Props) :=
  match targets with
  | [] => Some (st, props)
  | (clientX, clientY, point) :: targets' =>
    '(st', out) ← handlePointerMove fuel props clientX clientY point st;
    moves fuel (feed props out) st' targets'
  end.

End Screen.

End Canvas.

(** Consecutive points are at most one step apart on each axis (or equal). *)
Fixpoint chainNear (l : list Point) : Prop :=
  match l with
  | p :: (q :: _) as l' =>
    (Z.abs (x q - x p) <= 1 ∧ Z.abs (y q - y p) <= 1) ∧ chainNear l'
  | _ => True
  end.

(** The points that a stroke through [targets] visits from [last]: the
    raster lines of the segments, one after the other. *)
Fixpoint strokePath (fuel : nat) (last : Point) (targets : list Point)
  : option (list Point) :=
  match targets with
  | [] => Some []
  | point :: targets' =>
    line ← getLinePixels fuel last point;
    rest ← strokePath fuel point targets';
    Some (line ++ rest)
  end.

(** Every segment of the stroke is within the fuel. *)
Fixpoint segmentsWithin (fuel : nat) (last : Point) (targets : list Point)
  : Prop :=
  match targets with
  | [] => True
  | point :: targets' =>
    (Z.to_nat (lineSteps last point) < fuel)%nat
    ∧ segmentsWithin fuel point targets'
  end.

(** *** The other handlers of the application component *)

Module Project.

(** [handleNewProject]: the new size, one empty frame, the first index. *)
Definition handleNewProject (newProjectSize : Size) (now : Z) (s : App.State)
  : option App.State :=
  grid ← App.createEmptyGrid (width newProjectSize) (height newProjectSize);
  let '(l, hp) := App.alloc (App.heap s) grid in
  Some {| App.heap := hp; App.size := newProjectSize;
          App.frames := [ {| App.id := App.frameId now; App.pixels := l |} ];
          App.currentFrameIdx := 0 |}.

(** [onSelectFrame = setCurrentFrameIdx]. *)
Definition setCurrentFrameIdx (idx : Z) (s : App.State) : App.State :=
  {| App.heap := App.heap s; App.size := App.size s;
     App.frames := App.frames s; App.currentFrameIdx := idx |}.

(** A click on the [k]-th thumbnail of the timeline, which is there for
    every frame of [frames.map] and calls [onSelectFrame(k)]. *)
Definition clickThumbnail (k : nat) (s : App.State) : option App.State :=
  _ ← App.frames s !! k;
  Some (setCurrentFrameIdx (Z.of_nat k) s).

(** The arrays of imported frames become objects of the store. *)
Fixpoint allocFrames (hp : gmap App.loc PixelGrid)
    (imported : list (string * PixelGrid))
  : list App.Frame * gmap App.loc PixelGrid :=
  match imported with
  | [] => ([], hp)
  | (i, a) :: imported' =>
    let '(l, hp1) := App.alloc hp a in
    let '(fs, hp2) := allocFrames hp1 imported' in
    ({| App.id := i; App.pixels := l |} :: fs, hp2)
  end.

(** The success path of [handleFileChange], [importedFrames] being what
    [importSpriteSheet] resolved to:
    [if (importedFrames.length > 0) { setFrames(...); setCurrentFrameIdx(0) }]. *)
Definition handleImported (importedFrames : list (string * PixelGrid))
    (s : App.State) : App.State :=
  if bool_decide (0 < length importedFrames)%nat then
    let '(fs, hp) := allocFrames (App.heap s) importedFrames in
    {| App.heap := hp; App.size := App.size s; App.frames := fs;
       App.currentFrameIdx := 0 |}
  else s.


(** Every pixel array of the state has [width * height] cells. *)
Definition sized (s : App.State) : Prop :=
  ∀ f, f ∈ App.frames s →
    Z.of_nat (length (App.contents (App.heap s) (App.pixels f)))
    = width (App.size s) * height (App.size s).

(** The pixels of the [k]-th frame. *)
Definition framePixels (s : App.State) (k : nat) : option PixelGrid :=
  f ← App.frames s !! k; Some (App.contents (App.heap s) (App.pixels f)).

End Project.

(** *** The editor: the application component with its canvas *)

Module Editor.

Section Screen.

Variable Num : Type.
Variables (plus minus : Num → Num → Num).

Record State := mkState {
  app : App.State;
  canvas : Canvas.State Num;
  activeTool : ToolType;
  primaryColor : string
}.

(** The props that the application passes to the canvas;
    [frames[currentFrameIdx].pixels] throws when there is no such frame. *)
Definition canvasProps (e : State) : option Canvas.Props :=
  current ← (if decide (0 <= App.currentFrameIdx (app e))
             then App.frames (app e) !! Z.to_nat (App.currentFrameIdx (app e))
             else None);
  Some {| Canvas.size := App.size (app e);
          Canvas.pixels := App.contents (App.heap (app e)) (App.pixels current);
          Canvas.tool := activeTool e;
          Canvas.color := primaryColor e |}.

(** [onDraw = handleUpdatePixels] and [onPickColor = setPrimaryColor]. *)
Definition deliver (out : Canvas.Output) (st : Canvas.State Num) (e : State)
  : option State :=
  match out with
  | Canvas.Nothing =>
    Some {| app := app e; canvas := st; activeTool := activeTool e;
            primaryColor := primaryColor e |}
  | Canvas.OnDraw newPixels =>
    let '(l, hp) := App.alloc (App.heap (app e)) newPixels in
    a ← App.handleUpdatePixels l
          {| App.heap := hp; App.size := App.size (app e);
             App.frames := App.frames (app e);
             App.currentFrameIdx := App.currentFrameIdx (app e) |};
    Some {| app := a; canvas := st; activeTool := activeTool e;
            primaryColor := primaryColor e |}
  | Canvas.OnPickColor picked =>
    Some {| app := app e; canvas := st; activeTool := activeTool e;
            primaryColor := picked |}
  end.

Inductive Event :=
| PointerDown (button : Z) (clientX clientY : Num) (point : Point)
| PointerMove (clientX clientY : Num) (point : Point)
| PointerUp
| SelectTool (t : ToolType)
| SelectColor (c : string)
| AddFrame (now : Z)
| DuplicateFrame (now : Z)
| DeleteFrame
| ClickThumbnail (k : nat)
| Tick
| NewProject (newProjectSize : Size) (now : Z).

Definition withApp (e : State) (a : App.State) : State :=
  {| app := a; canvas := canvas e; activeTool := activeTool e;
     primaryColor := primaryColor e |}.

Definition step (fuel : nat) (ev : Event) (e : State) : option State :=
  match ev with
  | PointerDown button clientX clientY point =>
    props ← canvasProps e;
    '(st, out) ← Canvas.handlePointerDown Num fuel props button clientX clientY
                   point (canvas e);
    deliver out st e
  | PointerMove clientX clientY point =>
    props ← canvasProps e;
    '(st, out) ← Canvas.handlePointerMove Num plus minus fuel props clientX
                   clientY point (canvas e);
    deliver out st e
  | PointerUp =>
    Some {| app := app e; canvas := Canvas.handlePointerUp Num (canvas e);
            activeTool := activeTool e; primaryColor := primaryColor e |}
  | SelectTool t =>
    Some {| app := app e; canvas := canvas e; activeTool := t;
            primaryColor := primaryColor e |}
  | SelectColor c =>
    Some {| app := app e; canvas := canvas e; activeTool := activeTool e;
            primaryColor := c |}
  | AddFrame now => withApp e <$> App.handleAddFrame now (app e)
  | DuplicateFrame now => withApp e <$> App.handleDuplicateFrame now (app e)
  | DeleteFrame => Some (withApp e (App.handleDeleteFrame (app e)))
  | ClickThumbnail k => withApp e <$> Project.clickThumbnail k (app e)
  | Tick => Some (withApp e (App.tick (app e)))
  | NewProject newProjectSize now =>
    withApp e <$> Project.handleNewProject newProjectSize now (app e)
  end.

Fixpoint run (fuel : nat) (evs : list Event) (e : State) : option State :=
  match evs with
  | [] => Some e
  | ev :: evs' => e' ← step fuel ev e; run fuel evs' e'
  end.

(** The editor as the component mounts: pencil, black, nothing pressed. *)
Definition initial (pan0 : Num * Num) : State :=
  {| app := App.initial; canvas := Canvas.idle Num pan0;
     activeTool := pencil; primaryColor := "#000000" |}.


End Screen.

End Editor.

(** *** [importSpriteSheet] of [src/utils/importUtils.ts] *)

Module ImportUtils.

(** The two calls of [ctx.drawImage] in the loop. *)
Inductive Draw :=
| DrawAt (dx dy : Z)
| DrawSlice (sx sy sWidth sHeight dx dy dWidth dHeight : Z).

(** [`frame-${now}-${k}`], [k] being [frames.length] at the push. *)
Definition importId (now : Z) (k : nat) : string :=
  "frame-" +:+ pretty now +:+ "-" +:+ pretty k.

Section Sheet.

(** The loaded image and the size of the frames to cut. *)
Variables (imgWidth imgHeight : Z) (frameSize : Size).

(** What the canvas gives back: the pixels that [getImageData] and the
    conversion loop produce after the canvas is cleared and the image drawn.
    (The browser canvas and [rgbaToHex] are not part of the sources.) *)
Variable decode : Draw → PixelGrid.

(** [Date.now()] when the [k]-th frame is pushed. *)
Variable clock : nat → Z.

Definition isSmallImage : bool :=
  bool_decide (imgWidth < width frameSize)
  || bool_decide (imgHeight < height frameSize).

Definition cols : Z :=
  if isSmallImage then 1 else imgWidth / width frameSize.

Definition rows : Z :=
  if isSmallImage then 1 else imgHeight / height frameSize.

(** The draw of the loop body at column [x] of row [y]. *)
Definition frameDraw (x y : Z) : Draw :=
  if isSmallImage then
    DrawAt ((width frameSize - imgWidth) / 2) ((height frameSize - imgHeight) / 2)
  else
    DrawSlice (x * width frameSize) (y * height frameSize)
      (width frameSize) (height frameSize)
      0 0 (width frameSize) (height frameSize).

(** [for (y = 0; y < rows; y++) for (x = 0; x < cols; x++)]: the pairs
    [(x, y)] in the order of the loop. *)
Definition cells : list (Z * Z) :=
  y ← seqZ 0 rows; x ← seqZ 0 cols; [(x, y)].

Inductive Outcome :=
| Reject
| Resolve (frames : list (string * PixelGrid)).

(** The [onload] callback with a 2d context at hand.  A frame width or
    height of 0 makes [cols] or [rows] of a large image infinite or [NaN];
    that case is left out ([None]). *)
Definition importSpriteSheet : option Outcome :=
  if negb isSmallImage
     && (bool_decide (width frameSize = 0) || bool_decide (height frameSize = 0))
  then None
  else if bool_decide (cols = 0) || bool_decide (rows = 0) then Some Reject
  else
    Some (Resolve
            (imap (fun k '(x, y) => (importId (clock k) k, decode (frameDraw x y)))
               cells)).

End Sheet.

End ImportUtils.

(** A string without the character [-]. *)
Fixpoint dashFree (s : string) : Prop :=
  match s with
  | EmptyString => True
  | String c s' => c ≠ "-"%char ∧ dashFree s'
  end.

(** *** [src/utils/exportUtils.ts]: what is drawn *)

Module ExportUtils.

(** One [ctx.fillRect(x, y, w, h)] with the [ctx.fillStyle] set before it. *)
Record FillRect := mkFillRect {
  fillStyle : string;
  rectX : Z;
  rectY : Z;
  rectW : Z;
  rectH : Z
}.

(** The canvas that [toDataURL] encodes: its size and the rectangles filled,
    in order. *)
Record Surface := mkSurface {
  canvasWidth : Z;
  canvasHeight : Z;
  commands : list FillRect
}.

(** [pixels.forEach((color, idx) => { if (color && color !== 'transparent')
    ... })] of [exportFrameAsPNG]. *)
Definition framePaint (pixels : PixelGrid) (size : Size) (scale : Z)
  : list FillRect :=
  mjoin (imap (fun idx color =>
                 if Canvas.opaque color then
                   let p := getCoords (Z.of_nat idx) (width size) in
                   [ {| fillStyle := default "" color;
                        rectX := x p * scale; rectY := y p * scale;
                        rectW := scale; rectH := scale |} ]
                 else [])
           pixels).

Definition exportFrameAsPNG (pixels : PixelGrid) (size : Size) (scale : Z)
  : Surface :=
  {| canvasWidth := width size * scale;
     canvasHeight := height size * scale;
     commands := framePaint pixels size scale |}.

(** The inner [forEach] of [exportSpriteSheet] for the frame number [idx]. *)
Definition sheetPaint (idx : nat) (pixels : PixelGrid) (size : Size) (scale : Z)
  : list FillRect :=
  mjoin (imap (fun pIdx color =>
                 if Canvas.opaque color then
                   let p := getCoords (Z.of_nat pIdx) (width size) in
                   let drawX := (Z.of_nat idx * width size + x p) * scale in
                   let drawY := y p * scale in
                   [ {| fillStyle := default "" color;
                        rectX := drawX; rectY := drawY;
                        rectW := scale; rectH := scale |} ]
                 else [])
           pixels).

(** [frames] are the pixel arrays of the frames, in order. *)
Definition exportSpriteSheet (frames : list PixelGrid) (size : Size) (scale : Z)
  : Surface :=
  {| canvasWidth := width size * Z.of_nat (length frames) * scale;
     canvasHeight := height size * scale;
     commands := mjoin (imap (fun idx pixels => sheetPaint idx pixels size scale)
                          frames) |}.

(** The block of the sprite sheet for the cell [pIdx] of the frame number
    [idx]. *)
Definition cellRect (size : Size) (scale : Z) (idx pIdx : nat) (c : string)
  : FillRect :=
  let p := getCoords (Z.of_nat pIdx) (width size) in
  {| fillStyle := c;
     rectX := (Z.of_nat idx * width size + x p) * scale;
     rectY := y p * scale;
     rectW := scale; rectH := scale |}.

(** A cell that is painted: a non-empty colour other than ['transparent']. *)
Definition painted (frames : list PixelGrid) (idx pIdx : nat) (c : string)
  : Prop :=
  ∃ pixels, frames !! idx = Some pixels ∧ pixels !! pIdx = Some (Some c)
            ∧ c ≠ "" ∧ c ≠ "transparent".

(** The surface pixels that a rectangle covers. *)
Definition covers (r : FillRect) (px py : Z) : Prop :=
  rectX r <= px < rectX r + rectW r ∧ rectY r <= py < rectY r + rectH r.

End ExportUtils.

(** ** Properties of array access *)

Module JsArrayFacts.
Import JsArray.

Lemma get_Some_range {A} (a : list (option A)) (i : Z) (v : A) :
  get a i = Some v → 0 <= i < Z.of_nat (length a).
Proof.
  unfold get. case_decide; [|done]. intros Hv.
  destruct (a !! Z.to_nat i) as [o|] eqn:Hl; [|done].
  apply lookup_lt_Some in Hl. lia.
Qed.

Lemma get_ge {A} (a : list (option A)) (i : Z) :
  Z.of_nat (length a) <= i → get a i = None.
Proof.
  intros Hi. unfold get. case_decide; [|done].
  rewrite lookup_ge_None_2; [done|lia].
Qed.

Lemma get_set_eq {A} (a : list (option A)) (i : Z) (v : A) :
  0 <= i → get (set a i v) i = Some v.
Proof.
  intros Hi. unfold get, set.
  rewrite decide_True by done. rewrite decide_False by lia.
  case_decide as Hlt.
  - rewrite list_lookup_insert_eq by lia. done.
  - rewrite lookup_app_r by lia. rewrite lookup_app_r by (rewrite length_replicate; lia).
    rewrite length_replicate.
    replace (Z.to_nat i - length a - (Z.to_nat i - length a))%nat with 0%nat by lia.
    done.
Qed.

Lemma get_set_ne {A} (a : list (option A)) (i j : Z) (v : A) :
  i ≠ j → get (set a i v) j = get a j.
Proof.
  intros Hne. unfold get, set.
  destruct (decide (0 <= j)) as [Hj|Hj]; [|done].
  destruct (decide (i < 0)) as [Hi|Hi]; [done|].
  case_decide as Hlt.
  - rewrite list_lookup_insert_ne by lia. done.
  - destruct (decide (Z.to_nat j < length a)%nat) as [Hja|Hja].
    + by rewrite lookup_app_l.
    + rewrite (lookup_ge_None_2 a) by lia. rewrite lookup_app_r by lia.
      destruct (decide (Z.to_nat j - length a < Z.to_nat i - length a)%nat).
      * rewrite lookup_app_l by (rewrite length_replicate; lia).
        rewrite lookup_replicate_2 by lia. done.
      * rewrite lookup_app_r by (rewrite length_replicate; lia).
        rewrite length_replicate.
        rewrite lookup_ge_None_2; [done|]. simpl. lia.
Qed.

Lemma length_set_in {A} (a : list (option A)) (i : Z) (v : A) :
  i < Z.of_nat (length a) → length (set a i v) = length a.
Proof.
  intros Hi. unfold set. case_decide; [done|].
  rewrite decide_True by done. apply length_insert.
Qed.

Lemma length_set_le {A} (a : list (option A)) (i : Z) (v : A) :
  (length a ≤ length (set a i v))%nat.
Proof.
  unfold set. repeat case_decide; [done| |].
  - by rewrite length_insert.
  - rewrite length_app. lia.
Qed.

(** Two arrays with the same length and the same reads are the same. *)
Lemma get_ext {A} (a b : list (option A)) :
  length a = length b → (∀ i, get a i = get b i) → a = b.
Proof.
  intros Hlen Hget. apply list_eq. intros k.
  specialize (Hget (Z.of_nat k)). unfold get in Hget.
  rewrite !decide_True, !Nat2Z.id in Hget by lia.
  destruct (a !! k) as [oa|] eqn:Ha, (b !! k) as [ob|] eqn:Hb; simpl in Hget.
  - by subst.
  - apply lookup_lt_Some in Ha. apply lookup_ge_None in Hb. lia.
  - apply lookup_lt_Some in Hb. apply lookup_ge_None in Ha. lia.
  - done.
Qed.

End JsArrayFacts.

(** ** Properties of the index arithmetic *)

Lemma getIndex_range (w h px py : Z) :
  0 <= px < w -> 0 <= py < h -> 0 <= getIndex px py w < w * h.
Proof. unfold getIndex. nia. Qed.

Lemma getIndex_inj (w px py qx qy : Z) :
  0 <= px < w -> 0 <= qx < w ->
  getIndex px py w = getIndex qx qy w -> px = qx /\ py = qy.
Proof. unfold getIndex. intros Hp Hq Heq. assert (py = qy) by nia. nia. Qed.

(** C7. [getCoords] and [getIndex] are exact inverses on valid inputs: for a
    positive width, a point with [0 <= x < width] and [0 <= y] is recovered
    from its index, and every index [0 <= i < width * height] is recovered
    from its coordinates. *)
Theorem getCoords_getIndex_inverse (w h px py i : Z) :
  0 < w -> 0 <= px < w -> 0 <= py -> 0 <= i < w * h ->
  getCoords (getIndex px py w) w = mkPoint px py
  /\ getIndex (x (getCoords i w)) (y (getCoords i w)) w = i.
Proof.
  intros Hw Hpx Hpy Hi. unfold getCoords, getIndex. simpl. split.
  - assert (Hnn : 0 <= py * w + px) by nia.
    rewrite Z.rem_mod_nonneg by lia.
    f_equal.
    + rewrite Z.add_comm, Z.mod_add by lia. apply Z.mod_small. lia.
    + rewrite Z.add_comm, Z.div_add by lia. rewrite Z.div_small by lia. lia.
  - rewrite Z.rem_mod_nonneg by lia.
    pose proof (Z.div_mod i w ltac:(lia)). lia.
Qed.

Lemma getCoords_getIndex_inverse_witness :
  getCoords (getIndex 2 1 4) 4 = mkPoint 2 1
  /\ getIndex (x (getCoords 7 4)) (y (getCoords 7 4)) 4 = 7.
Proof. apply (getCoords_getIndex_inverse 4 3 2 1 7); lia. Defined.

(** ** The raster line *)

Section LineFacts.

Variables (x1 y1 dx dy sx sy : Z).

Lemma lineLoop_acc fuel points x0 y0 err :
  lineLoop x1 y1 dx dy sx sy fuel points x0 y0 err
  = (points ++.) <$> lineLoop x1 y1 dx dy sx sy fuel [] x0 y0 err.
Proof.
  revert points x0 y0 err.
  induction fuel as [|fuel IH]; intros points x0 y0 err; simpl; [done|].
  destruct (bool_decide (x0 = x1) && bool_decide (y0 = y1)); [done|].
  destruct (bool_decide (2 * err > - dy)), (bool_decide (2 * err < dx));
    rewrite IH, (IH [mkPoint x0 y0]);
    match goal with |- context [lineLoop _ _ _ _ _ _ _ [] ?a ?b ?c] =>
      destruct (lineLoop x1 y1 dx dy sx sy fuel [] a b c); simpl;
      [by rewrite <- app_assoc | done] end.
Qed.

Lemma lineLoop_unfold fuel x0 y0 err :
  lineLoop x1 y1 dx dy sx sy (S fuel) [] x0 y0 err
  = if bool_decide (x0 = x1) && bool_decide (y0 = y1)
    then Some [mkPoint x0 y0]
    else let '(x0', y0', err') := lineNext dx dy sx sy x0 y0 err in
         (mkPoint x0 y0 ::.) <$> lineLoop x1 y1 dx dy sx sy fuel [] x0' y0' err'.
Proof.
  simpl. destruct (bool_decide (x0 = x1) && bool_decide (y0 = y1)); [done|].
  unfold lineNext.
  destruct (bool_decide (2 * err > - dy)), (bool_decide (2 * err < dx));
    by rewrite lineLoop_acc.
Qed.

Hypothesis Hsx : sx = 1 ∨ sx = -1.
Hypothesis Hsy : sy = 1 ∨ sy = -1.
Hypothesis Hdx : 0 <= dx.
Hypothesis Hdy : 0 <= dy.

Lemma lineRun_cons n x0 y0 x0' y0' l :
  (x0' = x0 ∨ x0' = x0 + sx) → (y0' = y0 ∨ y0' = y0 + sy) →
  (x0' ≠ x0 ∨ y0' ≠ y0) →
  lineRun x1 y1 n x0' y0' l → lineRun x1 y1 (S n) x0 y0 (mkPoint x0 y0 :: l).
Proof.
  intros Hx Hy Hne (Hlen & Hhd & Hlast & Hch).
  destruct l as [|q l]; [done|]. simpl in Hhd. injection Hhd as ->.
  repeat split; simpl in *; try done.
  - by rewrite Hlen.
  - intros [= ? ?]. lia.
  - lia.
  - lia.
Qed.

(** The line advances along x on every pass when [dy <= dx]: the error
    stays in a window, which ties the two coordinates together. *)
Lemma lineLoop_x_major (n : nat) :
  dy <= dx → 0 < dx →
  ∀ fuel x0 y0 err rx ry,
    rx = Z.of_nat n → 0 <= ry →
    x1 - x0 = sx * rx → y1 - y0 = sy * ry →
    err = dx - dy + rx * dy - ry * dx →
    - dy < 2 * err < 3 * dx - 2 * dy →
    (n < fuel)%nat →
    ∃ l, lineLoop x1 y1 dx dy sx sy fuel [] x0 y0 err = Some l
         ∧ lineRun x1 y1 n x0 y0 l.
Proof.
  intros Hmaj Hpos. induction n as [|n IH];
    intros fuel x0 y0 err rx ry Hrx Hry Hx Hy Herr Hwin Hfuel;
    (destruct fuel as [|fuel]; [lia|]); rewrite lineLoop_unfold.
  - assert (ry = 0) by nia. subst rx ry.
    rewrite !bool_decide_eq_true_2 by lia. simpl.
    eexists; split; [done|]. repeat split; simpl; try done.
    f_equal. f_equal; lia.
  - assert (Hx0 : x0 ≠ x1) by (intros ->; destruct Hsx; subst sx; lia).
    rewrite (bool_decide_eq_false_2 (x0 = x1)) by done. simpl.
    unfold lineNext. rewrite (bool_decide_eq_true_2 (2 * err > - dy)) by lia.
    destruct (decide (2 * err < dx)) as [Hlt|Hge].
    + rewrite (bool_decide_eq_true_2 _ Hlt).
      assert (1 <= ry) by nia.
      destruct (IH fuel (x0 + sx) (y0 + sy) (err - dy + dx) (rx - 1) (ry - 1))
        as (l & -> & Hrun); try lia; try nia.
      eexists; split; [done|].
      apply (lineRun_cons n x0 y0 (x0 + sx) (y0 + sy)); auto.
      left. destruct Hsx; lia.
    + rewrite (bool_decide_eq_false_2 _ Hge).
      destruct (IH fuel (x0 + sx) y0 (err - dy) (rx - 1) ry)
        as (l & -> & Hrun); try lia; try nia.
      eexists; split; [done|].
      apply (lineRun_cons n x0 y0 (x0 + sx) y0); auto.
      left. destruct Hsx; lia.
Qed.

(** Symmetrically, the line advances along y on every pass when [dx < dy]. *)
Lemma lineLoop_y_major (n : nat) :
  dx < dy →
  ∀ fuel x0 y0 err rx ry,
    ry = Z.of_nat n → 0 <= rx →
    x1 - x0 = sx * rx → y1 - y0 = sy * ry →
    err = dx - dy + rx * dy - ry * dx →
    2 * dx - 3 * dy < 2 * err < dx →
    (n < fuel)%nat →
    ∃ l, lineLoop x1 y1 dx dy sx sy fuel [] x0 y0 err = Some l
         ∧ lineRun x1 y1 n x0 y0 l.
Proof.
  intros Hmaj. induction n as [|n IH];
    intros fuel x0 y0 err rx ry Hry Hrx Hx Hy Herr Hwin Hfuel;
    (destruct fuel as [|fuel]; [lia|]); rewrite lineLoop_unfold.
  - assert (rx = 0) by nia. subst rx ry.
    rewrite !bool_decide_eq_true_2 by lia. simpl.
    eexists; split; [done|]. repeat split; simpl; try done.
    f_equal. f_equal; lia.
  - assert (Hy0 : y0 ≠ y1) by (intros ->; destruct Hsy; subst sy; lia).
    rewrite (bool_decide_eq_false_2 (y0 = y1)) by done.
    rewrite andb_false_r.
    unfold lineNext. rewrite (bool_decide_eq_true_2 (2 * err < dx)) by lia.
    destruct (decide (2 * err > - dy)) as [Hgt|Hle].
    + rewrite (bool_decide_eq_true_2 _ Hgt).
      assert (1 <= rx) by nia.
      destruct (IH fuel (x0 + sx) (y0 + sy) (err - dy + dx) (rx - 1) (ry - 1))
        as (l & -> & Hrun); try lia; try nia.
      eexists; split; [done|].
      apply (lineRun_cons n x0 y0 (x0 + sx) (y0 + sy)); auto.
      right. destruct Hsy; lia.
    + rewrite (bool_decide_eq_false_2 _ Hle).
      destruct (IH fuel x0 (y0 + sy) (err + dx) rx (ry - 1))
        as (l & -> & Hrun); try lia; try nia.
      eexists; split; [done|].
      apply (lineRun_cons n x0 y0 x0 (y0 + sy)); auto.
      right. destruct Hsy; lia.
Qed.

End LineFacts.

Lemma lineLoop_fuel_mono x1 y1 dx dy sx sy fuel fuel' x0 y0 err l :
  (fuel ≤ fuel')%nat →
  lineLoop x1 y1 dx dy sx sy fuel [] x0 y0 err = Some l →
  lineLoop x1 y1 dx dy sx sy fuel' [] x0 y0 err = Some l.
Proof.
  revert fuel' x0 y0 err l.
  induction fuel as [|fuel IH]; intros fuel' x0 y0 err l Hle; [done|].
  destruct fuel' as [|fuel']; [lia|].
  rewrite !lineLoop_unfold.
  destruct (bool_decide (x0 = x1) && bool_decide (y0 = y1)); [done|].
  destruct (lineNext dx dy sx sy x0 y0 err) as [[x0' y0'] err'].
  destruct (lineLoop x1 y1 dx dy sx sy fuel [] x0' y0' err') as [l'|] eqn:Hl';
    [|done].
  rewrite (IH fuel' x0' y0' err' l') by (done || lia). done.
Qed.

Lemma chain8_lookup (l : list Point) (i : nat) (p q : Point) :
  chain8 l → l !! i = Some p → l !! S i = Some q → step8 p q.
Proof.
  revert i. induction l as [|a l IH]; intros i Hch Hp Hq; [done|].
  destruct l as [|b l]; [by destruct i|].
  destruct Hch as [Hab Hch]. destruct i as [|i].
  - simpl in Hp, Hq. by simplify_eq.
  - by apply (IH i).
Qed.

(** Every pair of end points has its raster line, which the loop produces as
    soon as the fuel exceeds the number of steps. *)
Lemma getLinePixels_run (start end_ : Point) :
  ∃ l, (∀ fuel, (Z.to_nat (lineSteps start end_) < fuel)%nat →
          getLinePixels fuel start end_ = Some l)
       ∧ lineRun (x end_) (y end_) (Z.to_nat (lineSteps start end_))
           (x start) (y start) l.
Proof.
  destruct start as [x0 y0], end_ as [x1 y1]. unfold lineSteps, getLinePixels.
  simpl.
  set (dx := Z.abs (x1 - x0)). set (dy := Z.abs (y1 - y0)).
  set (sx := if bool_decide (x0 < x1) then 1 else -1).
  set (sy := if bool_decide (y0 < y1) then 1 else -1).
  assert (Hsx : sx = 1 ∨ sx = -1) by (subst sx; case_bool_decide; auto).
  assert (Hsy : sy = 1 ∨ sy = -1) by (subst sy; case_bool_decide; auto).
  assert (Hx : x1 - x0 = sx * dx) by (subst sx dx; case_bool_decide; lia).
  assert (Hy : y1 - y0 = sy * dy) by (subst sy dy; case_bool_decide; lia).
  assert (Hdx : 0 <= dx) by (subst dx; lia).
  assert (Hdy : 0 <= dy) by (subst dy; lia).
  clearbody dx dy sx sy.
  set (n := Z.to_nat (dx `max` dy)).
  assert (Hone : ∃ l, lineLoop x1 y1 dx dy sx sy (S n) [] x0 y0 (dx - dy) = Some l
                      ∧ lineRun x1 y1 n x0 y0 l).
  { destruct (decide (dy <= dx)) as [Hmaj|Hmaj].
    - destruct (decide (dx = 0)) as [Hz|Hz].
      + assert (dy = 0) by lia. subst dx dy.
        assert (x0 = x1) by lia. assert (y0 = y1) by lia. subst x1 y1.
        rewrite lineLoop_unfold, !bool_decide_eq_true_2 by done. simpl.
        eexists; split; [done|]. by repeat split.
      + eapply lineLoop_x_major with (rx := dx) (ry := dy);
          subst n; solve [auto | lia].
    - eapply lineLoop_y_major with (rx := dx) (ry := dy);
        subst n; solve [auto | lia]. }
  destruct Hone as (l & Hl & Hrun). exists l. split; [|done].
  intros fuel Hfuel. apply (lineLoop_fuel_mono _ _ _ _ _ _ (S n)); [lia|done].
Qed.

(** C3. [getLinePixels] returns, for every pair of points and whenever the
    fuel exceeds [max(|dx|,|dy|)], one sequence that begins at [start], ends at
    [end], has length [max(|dx|,|dy|) + 1], whose consecutive points are never
    equal and are 8-connected, and which is [[start]] when [start = end]; the
    line from (0,0) to (3,0) is [(0,0),(1,0),(2,0),(3,0)]. *)
Theorem getLinePixels_bresenham (start end_ : Point) :
  (∃ l,
    (∀ fuel, (Z.to_nat (lineSteps start end_) < fuel)%nat →
       getLinePixels fuel start end_ = Some l)
    ∧ head l = Some start
    ∧ last l = Some end_
    ∧ Z.of_nat (length l) = lineSteps start end_ + 1
    ∧ (∀ i p q, l !! i = Some p → l !! S i = Some q →
         p ≠ q ∧ Z.abs (x q - x p) <= 1 ∧ Z.abs (y q - y p) <= 1)
    ∧ (start = end_ → l = [start]))
  ∧ getLinePixels 4 (mkPoint 0 0) (mkPoint 3 0)
    = Some [mkPoint 0 0; mkPoint 1 0; mkPoint 2 0; mkPoint 3 0].
Proof.
  split; [|reflexivity].
  destruct (getLinePixels_run start end_) as (l & Hl & Hlen & Hhd & Hlast & Hch).
  exists l. repeat split; auto.
  - by destruct start.
  - by destruct end_.
  - rewrite Hlen. unfold lineSteps. lia.
  - by eapply chain8_lookup.
  - eapply chain8_lookup; eauto.
  - eapply chain8_lookup; eauto.
  - intros ->. unfold lineSteps in Hlen.
    replace (Z.to_nat _) with 0%nat in Hlen by lia.
    destruct l as [|p [|q l]]; try done. destruct end_. simpl in Hhd.
    by simplify_eq.
Qed.

Lemma getLinePixels_bresenham_witness :
  ∃ l, getLinePixels 5 (mkPoint 0 0) (mkPoint 3 4) = Some l
       ∧ Z.of_nat (length l) = 5.
Proof.
  destruct (getLinePixels_bresenham (mkPoint 0 0) (mkPoint 3 4))
    as [(l & Hfuel & _ & _ & Hlen & _) _].
  exists l. split.
  - apply Hfuel. vm_compute. lia.
  - exact Hlen.
Defined.

(** *** Reversing the end points *)

(** The loop run towards the reflected target with the opposite steps visits
    the reflected points.  An axis whose distance is 0 is never stepped along,
    so its step may be anything. *)
Lemma lineLoop_reflect (cx cy x1 y1 dx dy sx sy sx' sy' : Z) (fuel : nat) :
  0 <= dx → 0 <= dy →
  ∀ x0 y0 err,
    (sx' = - sx ∨ (dx = 0 ∧ err = - dy)) →
    (sy' = - sy ∨ (dy = 0 ∧ err = dx)) →
    lineLoop (cx - x1) (cy - y1) dx dy sx' sy' fuel [] (cx - x0) (cy - y0) err
    = fmap (M := list) (fun p => mkPoint (cx - x p) (cy - y p))
        <$> lineLoop x1 y1 dx dy sx sy fuel [] x0 y0 err.
Proof.
  intros Hdx Hdy. induction fuel as [|fuel IH]; intros x0 y0 err Hx Hy; [done|].
  rewrite !lineLoop_unfold.
  destruct (decide (x0 = x1 ∧ y0 = y1)) as [[-> ->]|Hne].
  { by rewrite !bool_decide_eq_true_2. }
  assert (bool_decide (x0 = x1) && bool_decide (y0 = y1) = false) as ->.
  { apply andb_false_iff. rewrite !bool_decide_eq_false.
    destruct (decide (x0 = x1)); [right|left]; [|done].
    intros ?. by apply Hne. }
  assert (bool_decide (cx - x0 = cx - x1) && bool_decide (cy - y0 = cy - y1)
          = false) as ->.
  { apply andb_false_iff. rewrite !bool_decide_eq_false.
    destruct (decide (x0 = x1)); [right|left]; [|lia].
    intros ?. apply Hne. split; [done|lia]. }
  unfold lineNext.
  destruct (decide (2 * err > - dy)) as [Hxs|Hxs];
    [rewrite (bool_decide_eq_true_2 _ Hxs)|rewrite (bool_decide_eq_false_2 _ Hxs)];
  (destruct (decide (2 * err < dx)) as [Hys|Hys];
    [rewrite (bool_decide_eq_true_2 _ Hys)|rewrite (bool_decide_eq_false_2 _ Hys)]).
  - assert (sx' = - sx) as -> by lia. assert (sy' = - sy) as -> by lia.
    replace (cx - x0 + - sx) with (cx - (x0 + sx)) by lia.
    replace (cy - y0 + - sy) with (cy - (y0 + sy)) by lia.
    rewrite IH by lia.
    by destruct (lineLoop x1 y1 dx dy sx sy fuel [] _ _ _).
  - assert (sx' = - sx) as -> by lia.
    replace (cx - x0 + - sx) with (cx - (x0 + sx)) by lia.
    rewrite IH by lia.
    by destruct (lineLoop x1 y1 dx dy sx sy fuel [] _ _ _).
  - assert (sy' = - sy) as -> by lia.
    replace (cy - y0 + - sy) with (cy - (y0 + sy)) by lia.
    rewrite IH by lia.
    by destruct (lineLoop x1 y1 dx dy sx sy fuel [] _ _ _).
  - rewrite IH by lia.
    by destruct (lineLoop x1 y1 dx dy sx sy fuel [] _ _ _).
Qed.

Lemma getLinePixels_reflect (fuel : nat) (start end_ : Point) :
  getLinePixels fuel end_ start
  = fmap (M := list) (reflect start end_) <$> getLinePixels fuel start end_.
Proof.
  destruct start as [x0 y0], end_ as [x1 y1]. unfold getLinePixels, reflect.
  simpl.
  replace (Z.abs (x0 - x1)) with (Z.abs (x1 - x0)) by lia.
  replace (Z.abs (y0 - y1)) with (Z.abs (y1 - y0)) by lia.
  rewrite <- (lineLoop_reflect (x0 + x1) (y0 + y1) x1 y1 _ _
               (if bool_decide (x0 < x1) then 1 else -1)
               (if bool_decide (y0 < y1) then 1 else -1)
               (if bool_decide (x1 < x0) then 1 else -1)
               (if bool_decide (y1 < y0) then 1 else -1)).
  - f_equal; lia.
  - lia.
  - lia.
  - repeat case_bool_decide; lia.
  - repeat case_bool_decide; lia.
Qed.

(** C8, as the code has it.  The line from [end] to [start] has the same
    length as the line from [start] to [end], and its i-th point is the i-th
    point of that line reflected through the midpoint of the two end points
    (the same Bresenham decisions are taken from the other end); the two lines
    need not cover the same points. *)
Theorem getLinePixels_reversed (start end_ : Point) (fuel : nat) :
  (Z.to_nat (lineSteps start end_) < fuel)%nat →
  ∃ l l',
    getLinePixels fuel start end_ = Some l
    ∧ getLinePixels fuel end_ start = Some l'
    ∧ length l' = length l
    ∧ ∀ i, l' !! i = reflect start end_ <$> l !! i.
Proof.
  intros Hfuel.
  destruct (getLinePixels_run start end_) as (l & Hl & _).
  exists l, (reflect start end_ <$> l).
  rewrite (getLinePixels_reflect fuel start end_), (Hl fuel Hfuel).
  repeat split.
  - apply length_fmap.
  - intros i. apply list_lookup_fmap.
Qed.

Lemma getLinePixels_reversed_witness :
  ∃ l l',
    getLinePixels 3 (mkPoint 0 0) (mkPoint 2 1) = Some l
    ∧ getLinePixels 3 (mkPoint 2 1) (mkPoint 0 0) = Some l'
    ∧ length l' = length l
    ∧ ∀ i, l' !! i = reflect (mkPoint 0 0) (mkPoint 2 1) <$> l !! i.
Proof.
  apply (getLinePixels_reversed (mkPoint 0 0) (mkPoint 2 1) 3). vm_compute. lia.
Defined.

(** C8, as stated, fails: the lines between (0,0) and (2,1) pass through (1,0)
    in one direction and through (1,1) in the other. *)
Lemma getLinePixels_not_symmetric :
  ¬ (∀ (start end_ : Point) (fuel : nat) (l l' : list Point),
       getLinePixels fuel start end_ = Some l →
       getLinePixels fuel end_ start = Some l' →
       (∀ p, p ∈ l ↔ p ∈ l') ∧ length l = length l').
Proof.
  intros H.
  destruct (H (mkPoint 0 0) (mkPoint 2 1) 3%nat
              [mkPoint 0 0; mkPoint 1 0; mkPoint 2 1]
              [mkPoint 2 1; mkPoint 1 1; mkPoint 0 0]
              eq_refl eq_refl) as [Hset _].
  assert (Hin : mkPoint 1 0 ∈ [mkPoint 2 1; mkPoint 1 1; mkPoint 0 0]).
  { apply Hset. set_solver. }
  set_solver.
Qed.

(** ** Flood fill *)

Section FloodFacts.
Import JsArray JsArrayFacts.

Variables (T F : string) (w h : Z).

Local Notation "'idx' p" := (getIndex (x p) (y p) w) (at level 10, p at level 9).
Local Notation "'sz'" := (mkSize w h).

Lemma inGrid_inBounds (p : Point) : inGrid w h p = true ↔ inBounds sz p.
Proof.
  unfold inGrid, inBounds. simpl.
  rewrite !andb_true_iff, !bool_decide_eq_true. lia.
Qed.

Lemma idx_inj (p q : Point) :
  inBounds sz p → inBounds sz q → idx p = idx q → p = q.
Proof.
  intros [Hp _] [Hq _] Heq. destruct p as [a b], q as [c d]. simpl in *.
  destruct (getIndex_inj w a b c d Hp Hq Heq). by subst.
Qed.

Lemma elem_of_push (ns queue : list Point) (q : Point) :
  q ∈ fold_left (fun q n => if inGrid w h n then n :: q else q) ns queue
  ↔ q ∈ queue ∨ (q ∈ ns ∧ inGrid w h q = true).
Proof.
  revert queue. induction ns as [|n ns IH]; intros queue; simpl.
  - rewrite elem_of_nil. tauto.
  - rewrite IH, elem_of_cons. destruct (inGrid w h n) eqn:Hn.
    + rewrite elem_of_cons. split; [|naive_solver].
      intros [[->|?]|[? ?]]; auto.
    + split; [naive_solver|]. intros [?|[[->|?] ?]]; auto. congruence.
Qed.

Lemma elem_of_pushNeighbors (p q : Point) (queue : list Point) :
  q ∈ pushNeighbors w h p queue
  ↔ q ∈ queue ∨ (adjacent4 p q ∧ inBounds sz q).
Proof.
  unfold pushNeighbors, adjacent4. rewrite elem_of_push, inGrid_inBounds. done.
Qed.

Lemma length_push (ns queue : list Point) :
  (length (fold_left (fun q n => if inGrid w h n then n :: q else q) ns queue)
   ≤ length queue + length ns)%nat.
Proof.
  revert queue. induction ns as [|n ns IH]; intros queue; simpl; [lia|].
  etrans; [apply IH|]. destruct (inGrid w h n); simpl; lia.
Qed.

Lemma length_pushNeighbors (p : Point) (queue : list Point) :
  (length (pushNeighbors w h p queue) ≤ length queue + 4)%nat.
Proof. unfold pushNeighbors. etrans; [apply length_push|]. done. Qed.

(** *** Termination *)

Lemma size_difference_step (U V : gset Z) (i : Z) :
  i ∈ U → i ∉ V → size (U ∖ V) = S (size (U ∖ ({[ i ]} ∪ V))).
Proof.
  intros HU HV.
  assert (U ∖ V = {[ i ]} ∪ U ∖ ({[ i ]} ∪ V)) as ->.
  { apply set_eq. intros j. destruct (decide (j = i)); set_solver. }
  rewrite size_union by set_solver. by rewrite size_singleton.
Qed.

(** Every index that the loop can still visit lies in [U]; each pass either
    shortens the queue or visits a new index of [U] and pushes at most four
    points. *)
Lemma floodLoop_terminates (U : gset Z) (fuel : nat) :
  (∀ p, inBounds sz p → idx p ∈ U) →
  ∀ (cur : PixelGrid) (queue : list Point) (visited : gset Z),
    (∀ p, p ∈ queue → idx p ∈ U) →
    (4 * size (U ∖ visited) + length queue ≤ fuel)%nat →
    is_Some (floodLoop T F w h fuel cur queue visited).
Proof.
  intros HU. induction fuel as [|fuel IH]; intros cur queue visited Hq Hm.
  - destruct queue; simpl in *; [done|lia].
  - destruct queue as [|p queue]; simpl; [done|].
    assert (Hp : idx p ∈ U) by (apply Hq; set_solver).
    assert (Hq' : ∀ q, q ∈ queue → idx q ∈ U) by (intros; apply Hq; set_solver).
    simpl in Hm.
    destruct (decide (idx p ∈ visited)) as [Hv|Hv].
    + apply IH; [done|lia].
    + rewrite (size_difference_step U visited (idx p)) in Hm by done.
      case_bool_decide.
      * apply IH.
        -- intros q [Hin|[_ Hin]]%elem_of_pushNeighbors; auto.
        -- pose proof (length_pushNeighbors p queue). lia.
      * apply IH; [done|lia].
Qed.

Lemma floodLoop_fuel_mono (fuel fuel' : nat) cur queue visited out :
  (fuel ≤ fuel')%nat →
  floodLoop T F w h fuel cur queue visited = Some out →
  floodLoop T F w h fuel' cur queue visited = Some out.
Proof.
  revert fuel' cur queue visited.
  induction fuel as [|fuel IH]; intros fuel' cur queue visited Hle.
  - destruct queue; [|done]. by destruct fuel'.
  - destruct fuel' as [|fuel']; [lia|].
    destruct queue as [|p queue]; simpl; [done|].
    destruct (decide (idx p ∈ visited)); [apply IH; lia|].
    case_bool_decide; apply IH; lia.
Qed.

Lemma elem_of_gridIndices (i : Z) : i ∈ gridIndices w h ↔ 0 <= i < w * h.
Proof.
  unfold gridIndices. rewrite elem_of_list_to_set, list_elem_of_fmap.
  split.
  - intros (k & -> & Hk). apply elem_of_seq in Hk. lia.
  - intros Hi. exists (Z.to_nat i). split; [lia|]. apply elem_of_seq. lia.
Qed.

Lemma size_gridIndices : size (gridIndices w h) = Z.to_nat (w * h).
Proof.
  unfold gridIndices. rewrite size_list_to_set.
  - by rewrite length_fmap, length_seq.
  - apply NoDup_fmap; [apply _|apply NoDup_seq].
Qed.

Lemma floodLoop_from_start (cur : PixelGrid) (start : Point) (fuel : nat) :
  (floodFuel w h ≤ fuel)%nat →
  is_Some (floodLoop T F w h fuel cur [start] ∅).
Proof.
  intros Hfuel.
  apply (floodLoop_terminates ({[ idx start ]} ∪ gridIndices w h)).
  - intros p [Hx Hy]. simpl in *. apply elem_of_union_r, elem_of_gridIndices.
    by apply getIndex_range.
  - intros p Hp. set_solver.
  - assert (size (({[ idx start ]} ∪ gridIndices w h) ∖ (∅ : gset Z))
            ≤ Z.to_nat (w * h) + 1)%nat.
    { rewrite difference_empty_L, size_union_alt, size_singleton.
      pose proof (subseteq_size (gridIndices w h ∖ {[ idx start ]}) (gridIndices w h)
                    ltac:(set_solver)) as Hle.
      rewrite size_gridIndices in Hle. lia. }
    unfold floodFuel in Hfuel. simpl. lia.
Qed.

(** *** What the loop writes *)

Variable g0 : PixelGrid.

Lemma floodLoop_retouched (fuel : nat) :
  ∀ cur queue visited out,
    retouched T F g0 cur →
    floodLoop T F w h fuel cur queue visited = Some out →
    retouched T F g0 out.
Proof.
  induction fuel as [|fuel IH]; intros cur queue visited out Hcur.
  - destruct queue; simpl; [|done]. by intros [= <-].
  - destruct queue as [|p queue]; simpl; [by intros [= <-]|].
    destruct (decide (idx p ∈ visited)); [by apply IH|].
    case_bool_decide as Hc; [|by apply IH].
    apply IH. destruct Hcur as [Hlen Hcur].
    pose proof (get_Some_range _ _ _ Hc) as Hr. split.
    + rewrite length_set_in by lia. done.
    + intros i. destruct (decide (i = idx p)) as [->|Hne].
      * right. rewrite get_set_eq by lia. split; [|done].
        destruct (Hcur (idx p)) as [Heq|[? _]]; [congruence|done].
      * rewrite get_set_ne by done. apply Hcur.
Qed.

End FloodFacts.

Section FloodReach.
Import JsArray JsArrayFacts.

Variables (T F : string) (w h : Z) (g0 : PixelGrid) (start : Point).

Local Notation "'idx' p" := (getIndex (x p) (y p) w) (at level 10, p at level 9).
Local Notation "'sz'" := (mkSize w h).
Local Notation "'reach'" := (reachable sz g0 T start).

Hypothesis Hstart : inBounds sz start.
Hypothesis HstartT : pixelAt sz g0 start = Some T.

Lemma floodInv_initial : floodInv T F w h g0 start (spread g0) [start] ∅.
Proof.
  split.
  - intros i. rewrite decide_False by set_solver. done.
  - intros q ->%list_elem_of_singleton. split; [done|]. intros _. constructor.
  - set_solver.
  - set_solver.
  - right. set_solver.
Qed.

Lemma floodInv_skip cur p queue visited :
  idx p ∈ visited → floodInv T F w h g0 start cur (p :: queue) visited →
  floodInv T F w h g0 start cur queue visited.
Proof.
  intros Hv [Hc Hq Hvis Hcl Hs]. split; auto.
  - intros q Hin. apply Hq. by right.
  - intros a b Ha Hav HaT Hadj Hb.
    destruct (Hcl a b Ha Hav HaT Hadj Hb) as [?|[->|?]%elem_of_cons]; auto.
  - destruct Hs as [?|[->|?]%elem_of_cons]; auto.
Qed.

Lemma floodInv_other cur p queue visited :
  idx p ∉ visited → get cur (idx p) ≠ Some T →
  floodInv T F w h g0 start cur (p :: queue) visited →
  floodInv T F w h g0 start cur queue ({[ idx p ]} ∪ visited).
Proof.
  intros Hv Hne [Hc Hq Hvis Hcl Hs].
  assert (Hg : get g0 (idx p) ≠ Some T).
  { rewrite Hc, decide_False in Hne; [done|]. by intros [? _]. }
  destruct (Hq p ltac:(by left)) as [Hp _].
  split.
  - intros i. rewrite Hc. destruct (decide (i = idx p)) as [->|Hi].
    + rewrite !decide_False; [done| |]; by intros [_ ?].
    + destruct (decide (i ∈ visited ∧ get g0 i = Some T)) as [[? ?]|Hn].
      * rewrite decide_True; [done|]. split; [set_solver|done].
      * rewrite decide_False; [done|]. intros [[?%elem_of_singleton|?]%elem_of_union ?];
          [done|]. by apply Hn.
  - intros q Hin. apply Hq. by right.
  - intros i [->%elem_of_singleton|Hi]%elem_of_union; [|by apply Hvis].
    exists p. split; [done|]. split; [done|]. by intros ?.
  - intros a b Ha [Hav%elem_of_singleton|Hav]%elem_of_union HaT Hadj Hb.
    + rewrite Hav in HaT. done.
    + destruct (Hcl a b Ha Hav HaT Hadj Hb) as [?|[->|?]%elem_of_cons].
      * left. set_solver.
      * left. set_solver.
      * by right.
  - destruct Hs as [?|[->|?]%elem_of_cons]; [left|left|by right]; set_solver.
Qed.

Lemma floodInv_fill cur p queue visited :
  idx p ∉ visited → get cur (idx p) = Some T →
  floodInv T F w h g0 start cur (p :: queue) visited →
  floodInv T F w h g0 start (set cur (idx p) F) (pushNeighbors w h p queue)
    ({[ idx p ]} ∪ visited).
Proof.
  intros Hv Hcur [Hc Hq Hvis Hcl Hs].
  assert (Hg : get g0 (idx p) = Some T).
  { rewrite Hc, decide_False in Hcur; [done|]. by intros [? _]. }
  destruct (Hq p ltac:(by left)) as [Hp Hreach]. specialize (Hreach Hg).
  pose proof (get_Some_range _ _ _ Hcur) as Hr.
  split.
  - intros i. destruct (decide (i = idx p)) as [->|Hi].
    + rewrite get_set_eq by lia. rewrite decide_True; [done|].
      split; [set_solver|done].
    + rewrite get_set_ne by done. rewrite Hc.
      destruct (decide (i ∈ visited ∧ get g0 i = Some T)) as [[? ?]|Hn].
      * rewrite decide_True; [done|]. split; [set_solver|done].
      * rewrite decide_False; [done|].
        intros [[?%elem_of_singleton|?]%elem_of_union ?]; [done|]. by apply Hn.
  - intros q [Hin|[Hadj Hb]]%elem_of_pushNeighbors.
    + apply Hq. by right.
    + split; [done|]. intros HqT. by apply (reachable_step _ _ _ _ p q).
  - intros i [->%elem_of_singleton|Hi]%elem_of_union; [|by apply Hvis].
    exists p. split; [done|]. split; [done|]. by intros _.
  - intros a b Ha [Hav%elem_of_singleton|Hav]%elem_of_union HaT Hadj Hb.
    + apply (idx_inj w h) in Hav; [|done|done]. subst a.
      right. apply elem_of_pushNeighbors. by right.
    + destruct (Hcl a b Ha Hav HaT Hadj Hb) as [?|[->|?]%elem_of_cons].
      * left. set_solver.
      * left. set_solver.
      * right. apply elem_of_pushNeighbors. by left.
  - destruct Hs as [?|[->|?]%elem_of_cons]; [left|left|right];
      [set_solver|set_solver|]. apply elem_of_pushNeighbors. by left.
Qed.

Lemma floodLoop_floodInv (fuel : nat) :
  ∀ cur queue visited out,
    floodInv T F w h g0 start cur queue visited →
    floodLoop T F w h fuel cur queue visited = Some out →
    ∃ visited', floodInv T F w h g0 start out [] visited'.
Proof.
  induction fuel as [|fuel IH]; intros cur queue visited out Hinv.
  - destruct queue; simpl; [|done]. intros [= <-]. by exists visited.
  - destruct queue as [|p queue]; simpl.
    { intros [= <-]. by exists visited. }
    destruct (decide (idx p ∈ visited)) as [Hv|Hv].
    + apply IH. by apply floodInv_skip with p.
    + case_bool_decide as Hc; apply IH.
      * by apply floodInv_fill.
      * by apply floodInv_other.
Qed.

Lemma reach_inBounds (p : Point) : reach p → inBounds sz p.
Proof. by destruct 1. Qed.

(** When the queue is empty the filled cells are the reachable ones. *)
Lemma floodInv_final (out : PixelGrid) (visited : gset Z) (p : Point) :
  floodInv T F w h g0 start out [] visited → inBounds sz p →
  (reach p → pixelAt sz out p = Some F)
  ∧ (¬ reach p → pixelAt sz out p = pixelAt sz g0 p).
Proof.
  intros [Hc Hq Hvis Hcl Hs] Hp. unfold pixelAt. simpl.
  assert (Hall : ∀ q, reach q → idx q ∈ visited ∧ get g0 (idx q) = Some T).
  { induction 1 as [|a b Ha [IHv IHT] Hadj Hb HbT].
    - split; [|done]. destruct Hs as [?|?%elem_of_nil]; done.
    - split; [|done].
      destruct (Hcl a b (reach_inBounds a Ha) IHv IHT Hadj Hb)
        as [?|?%elem_of_nil]; done. }
  split.
  - intros Hr%Hall. rewrite Hc, decide_True; done.
  - intros Hnr. rewrite Hc, decide_False; [done|].
    intros [Hv HT]. destruct (Hvis _ Hv) as (q & Hq' & Heq & Hreach).
    apply (idx_inj w h) in Heq; [|done|done]. subst q. by apply Hnr, Hreach.
Qed.

End FloodReach.

Section FloodFillTop.
Import JsArray JsArrayFacts.

Lemma floodFill_loop (fuel : nat) (pixels : PixelGrid) (start : Point)
    (T F : string) (size : Size) :
  let startIndex := getIndex (x start) (y start) (width size) in
  get pixels startIndex ≠ Some F → get pixels startIndex = Some T →
  floodFill fuel pixels start T F size
  = floodLoop T F (width size) (height size) fuel (spread pixels) [start] ∅.
Proof.
  intros startIndex HF HT. unfold floodFill. fold startIndex.
  pose proof (get_Some_range _ _ _ HT) as Hr.
  rewrite !bool_decide_eq_false_2 by lia. simpl.
  rewrite (bool_decide_eq_false_2 (get pixels startIndex = Some F)) by done.
  rewrite bool_decide_eq_false_2; [done|]. by intros ?.
Qed.

(** The grid that [floodFill] returns once it has entered the loop. *)
Lemma floodFill_result (pixels : PixelGrid) (start : Point) (T F : string)
    (size : Size) :
  let startIndex := getIndex (x start) (y start) (width size) in
  get pixels startIndex ≠ Some F → get pixels startIndex = Some T →
  ∃ out, ∀ fuel, (floodFuel (width size) (height size) ≤ fuel)%nat →
    floodFill fuel pixels start T F size = Some out
    ∧ floodLoop T F (width size) (height size) fuel (spread pixels) [start] ∅
      = Some out.
Proof.
  intros startIndex HF HT.
  destruct (floodLoop_from_start T F (width size) (height size) (spread pixels)
              start (floodFuel (width size) (height size)) ltac:(done))
    as [out Hout].
  exists out. intros fuel Hfuel.
  rewrite floodFill_loop by done.
  split; by apply (floodLoop_fuel_mono _ _ _ _ _ fuel) in Hout.
Qed.

End FloodFillTop.

(** C10. When [floodFill] takes none of its three early returns it returns
    (given the fuel [floodFuel]) a grid of the same length as the input in
    which every pixel is the input pixel or the fill colour, and the pixels
    that changed held exactly the target colour before. *)
Theorem floodFill_only_retouches_target (pixels : PixelGrid) (start : Point)
    (targetColor fillColor : string) (size : Size) :
  let startIndex := getIndex (x start) (y start) (width size) in
  0 <= startIndex < Z.of_nat (length pixels) →
  JsArray.get pixels startIndex ≠ Some fillColor →
  JsArray.get pixels startIndex = Some targetColor →
  ∃ out,
    (∀ fuel, (floodFuel (width size) (height size) ≤ fuel)%nat →
       floodFill fuel pixels start targetColor fillColor size = Some out)
    ∧ length out = length pixels
    ∧ (∀ i, JsArray.get out i = JsArray.get pixels i
            ∨ JsArray.get out i = Some fillColor)
    ∧ (∀ i, JsArray.get out i ≠ JsArray.get pixels i →
            JsArray.get pixels i = Some targetColor).
Proof.
  intros startIndex _ HF HT.
  destruct (floodFill_result pixels start targetColor fillColor size HF HT)
    as [out Hout].
  exists out.
  destruct (Hout _ (Nat.le_refl _)) as [_ Hloop].
  apply (floodLoop_retouched targetColor fillColor _ _ pixels) in Hloop;
    [|by split; auto].
  destruct Hloop as [Hlen Hcells].
  split; [intros fuel Hfuel; by apply Hout|]. split; [done|]. split.
  - intros i. destruct (Hcells i) as [?|[_ ?]]; auto.
  - intros i Hne. destruct (Hcells i) as [?|[? _]]; done.
Qed.

Lemma floodFill_only_retouches_target_witness :
  ∃ out,
    (∀ fuel, (floodFuel 2 1 ≤ fuel)%nat →
       floodFill fuel [Some "a"; Some "b"] (mkPoint 0 0) "a" "c" (mkSize 2 1)
       = Some out)
    ∧ length out = 2%nat
    ∧ (∀ i, JsArray.get out i = JsArray.get [Some "a"; Some "b"] i
            ∨ JsArray.get out i = Some "c")
    ∧ (∀ i, JsArray.get out i ≠ JsArray.get [Some "a"; Some "b"] i →
            JsArray.get [Some "a"; Some "b"] i = Some "a").
Proof.
  apply (floodFill_only_retouches_target [Some "a"; Some "b"] (mkPoint 0 0)
           "a" "c" (mkSize 2 1)); vm_compute; [split|..]; congruence.
Defined.

(** The region that flood fill recolours, for every grid of the canvas. *)
Lemma floodFill_region (pixels : PixelGrid) (size : Size)
    (start : Point) (targetColor fillColor : string) :
  Z.of_nat (length pixels) = width size * height size →
  inBounds size start →
  pixelAt size pixels start = Some targetColor →
  fillColor ≠ targetColor →
  ∃ out,
    (∀ fuel, (floodFuel (width size) (height size) ≤ fuel)%nat →
       floodFill fuel pixels start targetColor fillColor size = Some out)
    ∧ Z.of_nat (length out) = width size * height size
    ∧ ∀ p, inBounds size p →
        (reachable size pixels targetColor start p →
           pixelAt size out p = Some fillColor)
        ∧ (¬ reachable size pixels targetColor start p →
           pixelAt size out p = pixelAt size pixels p).
Proof.
  intros Hlen Hstart HT Hne. destruct size as [w h]. simpl in *.
  assert (HF : JsArray.get pixels (getIndex (x start) (y start) w)
               ≠ Some fillColor).
  { unfold pixelAt in HT. simpl in HT. rewrite HT. congruence. }
  destruct (floodFill_result pixels start targetColor fillColor (mkSize w h) HF HT)
    as [out Hout].
  exists out.
  destruct (Hout _ (Nat.le_refl _)) as [_ Hloop]. simpl in Hloop.
  split; [intros fuel Hfuel; by apply Hout|]. split.
  - apply (floodLoop_retouched targetColor fillColor _ _ pixels) in Hloop;
      [|by split; auto].
    destruct Hloop as [-> _]. done.
  - intros p Hp.
    destruct (floodLoop_floodInv targetColor fillColor w h pixels start
                Hstart HT _ _ _ _ _
                (floodInv_initial targetColor fillColor w h pixels start
                   Hstart HT) Hloop) as [visited Hinv].
    by apply (floodInv_final targetColor fillColor w h pixels start Hstart HT
                out visited).
Qed.

(** *** Two 3x3 grids *)

Section FloodExamples.
Import JsArray JsArrayFacts.

Local Notation "'sz33'" := (mkSize 3 3).

Local Ltac reach_from p :=
  apply (reachable_step _ _ _ _ p);
  [ | unfold adjacent4, neighbors; simpl; rewrite !elem_of_cons; tauto
    | unfold inBounds; simpl; lia
    | reflexivity ].

(** A 3x3 grid is determined by its nine cells. *)
Lemma grid33_ext (a b : PixelGrid) :
  length a = 9%nat → length b = 9%nat →
  (∀ px py, 0 <= px < 3 → 0 <= py < 3 →
     pixelAt sz33 a (mkPoint px py) = pixelAt sz33 b (mkPoint px py)) →
  a = b.
Proof.
  intros Ha Hb Hcells. apply get_ext; [congruence|]. intros i.
  destruct (decide (0 <= i < 9)) as [Hi|Hi].
  - specialize (Hcells (i `mod` 3) (i `div` 3)).
    unfold pixelAt, getIndex in Hcells. simpl in Hcells.
    replace (i `div` 3 * 3 + i `mod` 3) with i in Hcells
      by (pose proof (Z.div_mod i 3); lia).
    apply Hcells.
    + apply Z.mod_pos_bound. lia.
    + split; [apply Z.div_pos; lia|apply Z.div_lt_upper_bound; lia].
  - destruct (decide (i < 0)).
    + unfold get. by rewrite !decide_False by lia.
    + rewrite !get_ge by lia. done.
Qed.

Variables (A B : string).
Hypothesis HAB : A ≠ B.

Lemma uniform33_reachable (px py : Z) :
  0 <= px < 3 → 0 <= py < 3 →
  reachable sz33 (uniform33 A) A (mkPoint 1 1) (mkPoint px py).
Proof.
  intros Hx Hy.
  assert (Hcase : (px = 0 ∨ px = 1 ∨ px = 2) ∧ (py = 0 ∨ py = 1 ∨ py = 2)) by lia.
  destruct Hcase as [[-> | [-> | ->]] [-> | [-> | ->]]].
  - reach_from (mkPoint 1 0). reach_from (mkPoint 1 1). constructor.
  - reach_from (mkPoint 1 1). constructor.
  - reach_from (mkPoint 1 2). reach_from (mkPoint 1 1). constructor.
  - reach_from (mkPoint 1 1). constructor.
  - constructor.
  - reach_from (mkPoint 1 1). constructor.
  - reach_from (mkPoint 1 0). reach_from (mkPoint 1 1). constructor.
  - reach_from (mkPoint 1 1). constructor.
  - reach_from (mkPoint 1 2). reach_from (mkPoint 1 1). constructor.
Qed.

Lemma floodFill_uniform33 (fuel : nat) :
  (floodFuel 3 3 ≤ fuel)%nat →
  floodFill fuel (uniform33 A) (mkPoint 1 1) A B sz33 = Some (replicate 9 (Some B)).
Proof.
  intros Hfuel.
  destruct (floodFill_region (uniform33 A) sz33 (mkPoint 1 1) A B)
    as (out & Hout & Hlen & Hcells);
    [reflexivity | unfold inBounds; simpl; lia | reflexivity | congruence |].
  rewrite (Hout fuel Hfuel). f_equal.
  apply grid33_ext; [simpl in Hlen; lia|done|].
  intros px py Hx Hy.
  destruct (Hcells (mkPoint px py)) as [Hin _].
  { unfold inBounds. simpl. lia. }
  rewrite Hin by by apply uniform33_reachable.
  assert (Hcase : (px = 0 ∨ px = 1 ∨ px = 2) ∧ (py = 0 ∨ py = 1 ∨ py = 2)) by lia.
  by destruct Hcase as [[-> | [-> | ->]] [-> | [-> | ->]]].
Qed.

Variable C : string.
Hypothesis HCA : C ≠ A.

Lemma corner33_reachable (p : Point) :
  reachable sz33 (corner33 A C) A (mkPoint 0 0) p ↔
  p ∈ [mkPoint 0 0; mkPoint 0 1; mkPoint 1 1].
Proof.
  split.
  - induction 1 as [|p q _ IH Hadj Hq HqA]; [by left|].
    unfold adjacent4, neighbors in Hadj.
    destruct Hq as [Hqx Hqy]. simpl in Hqx, Hqy.
    rewrite !elem_of_cons, elem_of_nil in IH.
    destruct IH as [->|[->|[->|Hf]]]; [| | |done]; simpl in Hadj;
      rewrite !elem_of_cons, elem_of_nil in Hadj;
      (destruct Hadj as [->|[->|[->|[->|Hf]]]]; [| | | |done]); simpl in *;
      try lia; try (by rewrite !elem_of_cons; auto);
      vm_compute in HqA; congruence.
  - rewrite !elem_of_cons, elem_of_nil. intros [->|[->|[->|Hf]]]; [| | |done].
    + constructor.
    + reach_from (mkPoint 0 0). constructor.
    + reach_from (mkPoint 0 1). reach_from (mkPoint 0 0). constructor.
Qed.

Lemma floodFill_corner33 (fuel : nat) :
  (floodFuel 3 3 ≤ fuel)%nat →
  floodFill fuel (corner33 A C) (mkPoint 0 0) A B sz33
  = Some [ Some B; Some C; Some A;
           Some B; Some B; Some C;
           Some C; Some C; Some C ].
Proof.
  intros Hfuel.
  destruct (floodFill_region (corner33 A C) sz33 (mkPoint 0 0) A B)
    as (out & Hout & Hlen & Hcells);
    [reflexivity | unfold inBounds; simpl; lia | reflexivity | congruence |].
  rewrite (Hout fuel Hfuel). f_equal.
  apply grid33_ext; [simpl in Hlen; lia|done|].
  intros px py Hx Hy.
  destruct (Hcells (mkPoint px py)) as [Hin Hout'].
  { unfold inBounds. simpl. lia. }
  rewrite corner33_reachable in Hin, Hout'.
  assert (Hcase : (px = 0 ∨ px = 1 ∨ px = 2) ∧ (py = 0 ∨ py = 1 ∨ py = 2)) by lia.
  destruct Hcase as [[-> | [-> | ->]] [-> | [-> | ->]]];
    first [ rewrite Hin by (rewrite !elem_of_cons; auto); reflexivity
          | rewrite Hout'
              by (rewrite !elem_of_cons, elem_of_nil; intros [?|[?|[?|?]]];
                  done || congruence);
            reflexivity ].
Qed.

End FloodExamples.

(** C1. On a grid of length [width * height], from a start point of the
    canvas that holds the target colour, and with a fill colour other than
    the target, [floodFill] returns (given the fuel [floodFuel]) a grid of the
    same length in which a canvas point has the fill colour if it is reachable
    from the start by north/east/south/west steps through target-coloured
    points, and keeps its colour otherwise.  On the uniform 3x3 grid of a
    colour A, filling from the centre turns all nine cells into the fill
    colour; on the grid with rows [A C A], [A A C], [C C C], filling from (0,0)
    leaves the A at (2,0), which meets the region only diagonally, as it is. *)
Theorem floodFill_fills_region (pixels : PixelGrid) (size : Size)
    (start : Point) (targetColor fillColor : string) :
  Z.of_nat (length pixels) = width size * height size →
  inBounds size start →
  pixelAt size pixels start = Some targetColor →
  fillColor ≠ targetColor →
  (∃ out,
    (∀ fuel, (floodFuel (width size) (height size) ≤ fuel)%nat →
       floodFill fuel pixels start targetColor fillColor size = Some out)
    ∧ Z.of_nat (length out) = width size * height size
    ∧ ∀ p, inBounds size p →
        (reachable size pixels targetColor start p →
           pixelAt size out p = Some fillColor)
        ∧ (¬ reachable size pixels targetColor start p →
           pixelAt size out p = pixelAt size pixels p))
  ∧ (∀ A B fuel, A ≠ B → (floodFuel 3 3 ≤ fuel)%nat →
       floodFill fuel (replicate 9 (Some A)) (mkPoint 1 1) A B (mkSize 3 3)
       = Some (replicate 9 (Some B)))
  ∧ (∀ A B C fuel, A ≠ B → C ≠ A → (floodFuel 3 3 ≤ fuel)%nat →
       floodFill fuel
         [ Some A; Some C; Some A;
           Some A; Some A; Some C;
           Some C; Some C; Some C ] (mkPoint 0 0) A B (mkSize 3 3)
       = Some [ Some B; Some C; Some A;
                Some B; Some B; Some C;
                Some C; Some C; Some C ]).
Proof.
  intros Hlen Hstart HT Hne. split; [|split].
  - by apply floodFill_region.
  - intros A B fuel HAB Hfuel. by apply floodFill_uniform33.
  - intros A B C fuel HAB HCA Hfuel. by apply floodFill_corner33.
Qed.

Lemma floodFill_fills_region_witness :
  ∃ out,
    floodFill 41 [Some "a"; Some "a"; Some "b"; Some "a"] (mkPoint 0 0)
      "a" "c" (mkSize 2 2) = Some out
    ∧ pixelAt (mkSize 2 2) out (mkPoint 1 0) = Some "c"
    ∧ pixelAt (mkSize 2 2) out (mkPoint 0 1) = Some "b".
Proof.
  destruct (floodFill_fills_region
              [Some "a"; Some "a"; Some "b"; Some "a"] (mkSize 2 2)
              (mkPoint 0 0) "a" "c")
    as [(out & Hout & _ & Hcells) _].
  - reflexivity.
  - unfold inBounds. simpl. lia.
  - reflexivity.
  - discriminate.
  - exists out. split; [apply Hout; vm_compute; lia|]. split.
    + apply (Hcells (mkPoint 1 0)).
      * unfold inBounds. simpl. lia.
      * apply (reachable_step _ _ _ _ (mkPoint 0 0)).
        -- constructor.
        -- unfold adjacent4, neighbors. simpl. rewrite !elem_of_cons. tauto.
        -- unfold inBounds. simpl. lia.
        -- reflexivity.
    + destruct (Hcells (mkPoint 0 1)) as [_ Hkeep].
      * unfold inBounds. simpl. lia.
      * rewrite Hkeep; [reflexivity|].
        intros Hr. inversion Hr as [|p q Hp Hadj Hq HqT]. discriminate HqT.
Defined.

(** *** The early returns of [floodFill] *)

(** Each of the three guards returns the argument array itself. *)
Lemma floodFill_guards (fuel : nat) (pixels : PixelGrid) (start : Point)
    (targetColor fillColor : string) (size : Size) :
  let startIndex := getIndex (x start) (y start) (width size) in
  startIndex < 0 ∨ Z.of_nat (length pixels) <= startIndex
  ∨ JsArray.get pixels startIndex = Some fillColor
  ∨ JsArray.get pixels startIndex ≠ Some targetColor →
  floodFill fuel pixels start targetColor fillColor size = Some pixels.
Proof.
  intros startIndex Hg. unfold floodFill. fold startIndex.
  destruct (bool_decide (startIndex < 0)) eqn:H1; [done|].
  destruct (bool_decide (startIndex >= Z.of_nat (length pixels))) eqn:H2; [done|].
  simpl. apply bool_decide_eq_false in H1, H2.
  destruct Hg as [?|[?|[Hf|Hn]]]; [lia|lia| |].
  - by rewrite (bool_decide_eq_true_2 _ Hf).
  - case_bool_decide; [done|]. by rewrite (bool_decide_eq_true_2 _ Hn).
Qed.

(** A start above or below the canvas, in a column of the canvas, is stopped
    by the index guard when the grid has [width * height] cells. *)
Lemma floodFill_start_row_outside (fuel : nat) (pixels : PixelGrid)
    (start : Point) (targetColor fillColor : string) (size : Size) :
  Z.of_nat (length pixels) = width size * height size →
  0 <= x start < width size →
  y start < 0 ∨ height size <= y start →
  floodFill fuel pixels start targetColor fillColor size = Some pixels.
Proof.
  intros Hlen Hx Hy. apply floodFill_guards. unfold getIndex. nia.
Qed.

(** C2, where the code departs from it.  The guard of [floodFill] tests the
    flat index of the start, not its coordinates: the start (-1,1) lies left of
    a 3x3 canvas, its index 2 is the index of (2,0), and the whole uniform grid
    is filled instead of being returned unchanged. *)
Theorem floodFill_start_left_of_canvas :
  ¬ inBounds (mkSize 3 3) (mkPoint (-1) 1)
  ∧ floodFill 41 (replicate 9 (Some "#000000")) (mkPoint (-1) 1)
      "#000000" "#ffffff" (mkSize 3 3)
    = Some (replicate 9 (Some "#ffffff")).
Proof.
  split.
  - unfold inBounds. simpl. lia.
  - vm_compute. reflexivity.
Qed.

(** ** Pencil and eraser strokes *)

Section Stroke.
Import JsArray JsArrayFacts.

Variables (tool : ToolType) (color : string) (size : Size).

Local Notation "'idx' p" := (getIndex (x p) (y p) (width size))
  (at level 10, p at level 9).

Hypothesis Htool : tool = pencil ∨ tool = eraser.

Lemma drawPixel_outside (p : Point) (g : PixelGrid) :
  ¬ inBounds size p → drawPixel tool color size p g = g.
Proof.
  intros Hp. unfold drawPixel, inBounds in *.
  destruct (decide (x p < 0)); [by rewrite bool_decide_eq_true_2|].
  destruct (decide (x p >= width size));
    [by rewrite (bool_decide_eq_true_2 (x p >= _)), orb_true_r|].
  destruct (decide (y p < 0));
    [by rewrite (bool_decide_eq_true_2 (y p < 0)), orb_true_r|].
  rewrite (bool_decide_eq_true_2 (y p >= _)) by lia. by rewrite orb_true_r.
Qed.

Lemma drawPixel_inside (p : Point) (g : PixelGrid) :
  inBounds size p →
  drawPixel tool color size p g = set g (idx p) (paint tool color).
Proof.
  intros [Hx Hy]. unfold drawPixel.
  rewrite !bool_decide_eq_false_2 by lia. simpl.
  by destruct Htool as [-> | ->].
Qed.

(** The index that [drawPixel] assigns at is an index of the canvas. *)
Lemma drawPixel_index_range (p : Point) :
  inBounds size p → 0 <= idx p < width size * height size.
Proof. intros [Hx Hy]. by apply getIndex_range. Qed.

Lemma strokeOver_cons (p : Point) (line : list Point) (g : PixelGrid) :
  strokeOver tool color size (p :: line) g
  = strokeOver tool color size line (drawPixel tool color size p g).
Proof. done. Qed.

Lemma strokeOver_other (line : list Point) (g : PixelGrid) (i : Z) :
  (∀ p, p ∈ line → inBounds size p → idx p ≠ i) →
  get (strokeOver tool color size line g) i = get g i.
Proof.
  revert g. induction line as [|p line IH]; intros g Hi; [done|].
  rewrite strokeOver_cons, IH by (intros; apply Hi; [by right|done]).
  destruct (decide (inBounds size p)) as [Hp|Hp].
  - rewrite drawPixel_inside by done. apply get_set_ne, Hi; [by left|done].
  - by rewrite drawPixel_outside.
Qed.

Lemma strokeOver_painted (line : list Point) (g : PixelGrid) (i : Z) :
  get g i = Some (paint tool color) →
  get (strokeOver tool color size line g) i = Some (paint tool color).
Proof.
  revert g. induction line as [|p line IH]; intros g Hi; [done|].
  rewrite strokeOver_cons. apply IH. destruct (decide (inBounds size p)) as [Hp|Hp].
  - rewrite drawPixel_inside by done.
    destruct (decide (idx p = i)) as [<-|Hne].
    + apply get_set_eq. by apply drawPixel_index_range.
    + by rewrite get_set_ne.
  - by rewrite drawPixel_outside.
Qed.

Lemma strokeOver_on_line (line : list Point) (g : PixelGrid) (p : Point) :
  p ∈ line → inBounds size p →
  get (strokeOver tool color size line g) (idx p) = Some (paint tool color).
Proof.
  revert g. induction line as [|q line IH]; intros g Hin Hp; [by inversion Hin|].
  apply elem_of_cons in Hin as [->|Hin]; rewrite strokeOver_cons.
  - apply strokeOver_painted. rewrite drawPixel_inside by done.
    apply get_set_eq. by apply drawPixel_index_range.
  - by apply IH.
Qed.

Lemma strokeOver_length (line : list Point) (g : PixelGrid) :
  Z.of_nat (length g) = width size * height size →
  length (strokeOver tool color size line g) = length g.
Proof.
  revert g. induction line as [|p line IH]; intros g Hlen; [done|].
  assert (Hd : length (drawPixel tool color size p g) = length g).
  { destruct (decide (inBounds size p)) as [Hp|Hp].
    - rewrite drawPixel_inside by done. apply length_set_in.
      pose proof (drawPixel_index_range p Hp). lia.
    - by rewrite drawPixel_outside. }
  rewrite strokeOver_cons, IH; lia.
Qed.

End Stroke.

(** C4. A pencil or eraser stroke segment from [lastDrawPoint] to [point]
    runs [drawPixel] over the points of [getLinePixels] in order.  The grid it
    hands on has the colour of the tool (the active colour for the pencil,
    ['transparent'] for the eraser) at every line point of the canvas; a line
    point outside the canvas leaves the grid as it is; every slot that is not
    the slot of a line point of the canvas, so every canvas point off the line,
    keeps its value, and a grid of [width * height] cells keeps its length.  On
    the all-transparent 4x4 grid the pencil stroke from (0,0) to (3,3) with
    [#ff0000] colours the four diagonal cells and nothing else. *)
Theorem handlePointerMove_draw_stroke (tool : ToolType) (color : string)
    (size : Size) (pixels : PixelGrid) (lastDrawPoint point : Point) :
  tool = pencil ∨ tool = eraser →
  (∃ line out,
    (∀ fuel, (Z.to_nat (lineSteps lastDrawPoint point) < fuel)%nat →
       getLinePixels fuel lastDrawPoint point = Some line
       ∧ handlePointerMove_draw fuel tool color size pixels lastDrawPoint point
         = Some out)
    ∧ (∀ p, p ∈ line → inBounds size p →
         pixelAt size out p = Some (paint tool color))
    ∧ (∀ p g, p ∈ line → ¬ inBounds size p →
         drawPixel tool color size p g = g)
    ∧ (∀ i, (∀ p, p ∈ line → inBounds size p →
               getIndex (x p) (y p) (width size) ≠ i) →
         JsArray.get out i = JsArray.get pixels i)
    ∧ (∀ q, inBounds size q → q ∉ line →
         pixelAt size out q = pixelAt size pixels q)
    ∧ (Z.of_nat (length pixels) = width size * height size →
         length out = length pixels))
  ∧ handlePointerMove_draw 4 pencil "#ff0000" (mkSize 4 4)
      (replicate 16 (Some "transparent")) (mkPoint 0 0) (mkPoint 3 3)
    = Some
        [ Some "#ff0000"; Some "transparent"; Some "transparent"; Some "transparent";
          Some "transparent"; Some "#ff0000"; Some "transparent"; Some "transparent";
          Some "transparent"; Some "transparent"; Some "#ff0000"; Some "transparent";
          Some "transparent"; Some "transparent"; Some "transparent"; Some "#ff0000" ].
Proof.
  intros Htool. split; [|vm_compute; reflexivity].
  destruct (getLinePixels_run lastDrawPoint point) as (line & Hline & _).
  exists line, (strokeOver tool color size line (JsArray.spread pixels)).
  split; [|split; [|split; [|split; [|split]]]].
  - intros fuel Hfuel. split; [by apply Hline|].
    unfold handlePointerMove_draw. by rewrite (Hline fuel Hfuel).
  - intros p Hin Hp. by apply strokeOver_on_line.
  - intros p g _ Hp. by apply drawPixel_outside.
  - intros i Hi. by apply strokeOver_other.
  - intros q Hq Hnot. apply strokeOver_other; [done|].
    intros p Hin Hp Heq. apply Hnot.
    destruct size as [w h]. simpl in *.
    apply (idx_inj w h) in Heq; [by subst|done|done].
  - intros Hlen. by apply strokeOver_length.
Qed.

Lemma handlePointerMove_draw_stroke_witness :
  ∃ line out,
    getLinePixels 3 (mkPoint 1 0) (mkPoint 1 2) = Some line
    ∧ handlePointerMove_draw 3 eraser "#00ff99" (mkSize 2 2)
        [Some "#00ff99"; Some "#00ff99"; Some "#00ff99"; Some "#00ff99"]
        (mkPoint 1 0) (mkPoint 1 2) = Some out
    ∧ pixelAt (mkSize 2 2) out (mkPoint 1 1) = Some "transparent"
    ∧ length out = 4%nat.
Proof.
  destruct (handlePointerMove_draw_stroke eraser "#00ff99" (mkSize 2 2)
              [Some "#00ff99"; Some "#00ff99"; Some "#00ff99"; Some "#00ff99"]
              (mkPoint 1 0) (mkPoint 1 2) (or_intror eq_refl))
    as [(line & out & Hrun & Hon & _ & _ & _ & Hlen) _].
  exists line, out.
  destruct (Hrun 3%nat) as [Hline Hout]; [vm_compute; lia|].
  split; [done|]. split; [done|]. split.
  - apply Hon.
    + vm_compute in Hline. injection Hline as <-. rewrite !elem_of_cons. tauto.
    + unfold inBounds. simpl. lia.
  - apply Hlen. reflexivity.
Defined.

(** ** Frames *)

Section AppFacts.
Import App.

Lemma splice_insert_at {A} (a : list A) (k : nat) (item : A) :
  (k ≤ length a)%nat →
  splice_insert a (Z.of_nat k) item = take k a ++ item :: drop k a.
Proof.
  intros Hk. unfold splice_insert.
  rewrite bool_decide_eq_false_2 by lia.
  by replace (Z.to_nat (Z.of_nat k `min` Z.of_nat (length a))) with k by lia.
Qed.

Lemma splice_insert_perm {A} (a : list A) (start : Z) (item : A) :
  splice_insert a start item ≡ₚ item :: a.
Proof.
  unfold splice_insert. set (k := Z.to_nat _).
  rewrite <- Permutation_middle. by rewrite take_drop.
Qed.

Lemma length_splice_insert {A} (a : list A) (start : Z) (item : A) :
  length (splice_insert a start item) = S (length a).
Proof. by rewrite splice_insert_perm. Qed.

Lemma filter_from_sublist {A} (f : A → Z → bool) (i : Z) (a : list A) :
  filter_from f i a `sublist_of` a.
Proof.
  revert i. induction a as [|e a IH]; intros i; simpl; [constructor|].
  destruct (f e i); by constructor.
Qed.

Lemma filter_from_before {A} (a : list A) (i t : Z) :
  t < i → filter_from (fun _ j => bool_decide (j ≠ t)) i a = a.
Proof.
  revert i. induction a as [|e a IH]; intros i Hlt; simpl; [done|].
  rewrite bool_decide_eq_true_2 by lia. f_equal. apply IH. lia.
Qed.

Lemma filter_from_delete {A} (a : list A) (i : Z) (k : nat) :
  filter_from (fun _ j => bool_decide (j ≠ i + Z.of_nat k)) i a = delete k a.
Proof.
  revert i k. induction a as [|e a IH]; intros i k; simpl; [done|].
  destruct k as [|k].
  - rewrite bool_decide_eq_false_2 by lia. apply filter_from_before. lia.
  - rewrite bool_decide_eq_true_2 by lia. simpl. f_equal.
    replace (i + Z.of_nat (S k)) with (i + 1 + Z.of_nat k) by lia. apply IH.
Qed.

Lemma createEmptyGrid_default :
  createEmptyGrid DEFAULT_SIZE DEFAULT_SIZE
  = Some (replicate 1024 (Some "transparent")).
Proof. reflexivity. Qed.

Lemma alloc_fresh (hp : gmap loc PixelGrid) (a : PixelGrid) :
  hp !! (alloc hp a).1 = None.
Proof. apply not_elem_of_dom. simpl. apply is_fresh. Qed.

Lemma contents_alloc_new (hp : gmap loc PixelGrid) (a : PixelGrid) :
  contents (alloc hp a).2 (alloc hp a).1 = a.
Proof. unfold contents. simpl. by rewrite lookup_insert_eq. Qed.

Lemma contents_alloc_old (hp : gmap loc PixelGrid) (a : PixelGrid) (l : loc) :
  is_Some (hp !! l) → contents (alloc hp a).2 l = contents hp l.
Proof.
  intros [b Hb]. unfold contents. simpl. rewrite lookup_insert_ne; [done|].
  intros <-. pose proof (alloc_fresh hp a) as Hf. simpl in Hf. congruence.
Qed.

Lemma contents_store_other (hp : gmap loc PixelGrid) (l l' : loc) i v :
  l ≠ l' → contents (store hp l i v) l' = contents hp l'.
Proof. intros Hne. unfold contents, store. by rewrite lookup_alter_ne. Qed.

Lemma contents_store_same (hp : gmap loc PixelGrid) (l : loc) i v :
  is_Some (hp !! l) →
  contents (store hp l i v) l = JsArray.set (contents hp l) i v.
Proof.
  intros [a Ha]. unfold contents, store. by rewrite lookup_alter_eq, Ha.
Qed.

(** The current frame of a state that satisfies the invariant. *)
Lemma invariant_current (s : State) :
  invariant s →
  ∃ f, frames s !! Z.to_nat (currentFrameIdx s) = Some f
       ∧ (if decide (0 <= currentFrameIdx s)
          then frames s !! Z.to_nat (currentFrameIdx s) else None) = Some f.
Proof.
  intros [_ Hi].
  destruct (lookup_lt_is_Some_2 (frames s) (Z.to_nat (currentFrameIdx s)))
    as [f Hf]; [lia|].
  exists f. split; [done|]. by rewrite decide_True by lia.
Qed.

Lemma handleAddFrame_frames (now : Z) (s s' : State) :
  handleAddFrame now s = Some s' →
  ∃ l, hp_fresh_loc s l
       ∧ frames s' = splice_insert (frames s) (currentFrameIdx s + 1)
                       {| id := frameId now; pixels := l |}
       ∧ currentFrameIdx s' = currentFrameIdx s + 1
       ∧ size s' = size s.
Proof.
  unfold handleAddFrame.
  destruct (createEmptyGrid _ _) as [grid|]; [|done]. simpl.
  intros [= <-]. simpl. eexists. split; [|done]. apply is_fresh.
Qed.

Lemma handleAddFrame_Some (now : Z) (s : State) :
  0 <= width (size s) * height (size s) < 2 ^ 32 →
  is_Some (handleAddFrame now s).
Proof.
  intros Hsz. unfold handleAddFrame, createEmptyGrid.
  by rewrite bool_decide_eq_true_2.
Qed.

Lemma handleDuplicateFrame_frames (now : Z) (s s' : State) :
  handleDuplicateFrame now s = Some s' →
  ∃ current,
    (if decide (0 <= currentFrameIdx s)
     then frames s !! Z.to_nat (currentFrameIdx s) else None) = Some current
    ∧ heap s' = (alloc (heap s) (contents (heap s) (pixels current))).2
    ∧ frames s' = splice_insert (frames s) (currentFrameIdx s + 1)
                    {| id := frameId now;
                       pixels := (alloc (heap s)
                                    (contents (heap s) (pixels current))).1 |}
    ∧ currentFrameIdx s' = currentFrameIdx s + 1
    ∧ size s' = size s.
Proof.
  unfold handleDuplicateFrame.
  destruct (if decide (0 <= currentFrameIdx s) then _ else _) as [current|];
    [|done].
  simpl. intros [= <-]. by exists current.
Qed.

Lemma handleDeleteFrame_frames (s : State) :
  invariant s → (1 < length (frames s))%nat →
  frames (handleDeleteFrame s)
  = delete (Z.to_nat (currentFrameIdx s)) (frames s)
  ∧ currentFrameIdx (handleDeleteFrame s) = Z.max 0 (currentFrameIdx s - 1).
Proof.
  intros [_ Hi] Hlen. unfold handleDeleteFrame.
  rewrite bool_decide_eq_false_2 by lia. simpl. split; [|done].
  rewrite <- (filter_from_delete (frames s) 0). f_equal.
  replace (0 + Z.of_nat (Z.to_nat (currentFrameIdx s))) with (currentFrameIdx s)
    by lia.
  done.
Qed.

End AppFacts.

(** C5. The frame-sequence invariant, [frames.length >= 1] and
    [0 <= currentFrameIdx < frames.length], is kept by every operation.
    [handleAddFrame] (which returns whenever [width * height] is an array
    length) and [handleDuplicateFrame] make the sequence one longer and move
    the current index to the position after the old one, where the new frame
    is; [handleDeleteFrame] leaves a one-frame state as it is and otherwise
    removes the current frame and sets the index to [max(0, index - 1)]; a
    playback tick keeps the frames and advances the index by 1 modulo
    [frames.length].  (The position that the claim counts from is the index
    after which the frame is inserted, the old current index.) *)
Theorem frame_invariant_preserved (s : App.State) :
  App.invariant s →
  (* addFrame *)
  ((∀ now, 0 <= width (App.size s) * height (App.size s) < 2 ^ 32 →
      is_Some (App.handleAddFrame now s))
   ∧ ∀ now s', App.handleAddFrame now s = Some s' →
      App.invariant s'
      ∧ App.currentFrameIdx s' = App.currentFrameIdx s + 1
      ∧ length (App.frames s') = S (length (App.frames s))
      ∧ App.id <$> App.frames s' !! Z.to_nat (App.currentFrameIdx s')
        = Some (App.frameId now))
  (* duplicateFrame *)
  ∧ (∀ now, ∃ s', App.handleDuplicateFrame now s = Some s'
      ∧ App.invariant s'
      ∧ App.currentFrameIdx s' = App.currentFrameIdx s + 1
      ∧ length (App.frames s') = S (length (App.frames s))
      ∧ App.id <$> App.frames s' !! Z.to_nat (App.currentFrameIdx s')
        = Some (App.frameId now))
  (* deleteFrame *)
  ∧ (App.invariant (App.handleDeleteFrame s)
     ∧ (length (App.frames s) = 1%nat → App.handleDeleteFrame s = s)
     ∧ ((1 < length (App.frames s))%nat →
        App.frames (App.handleDeleteFrame s)
        = delete (Z.to_nat (App.currentFrameIdx s)) (App.frames s)
        ∧ length (App.frames (App.handleDeleteFrame s))
          = (length (App.frames s) - 1)%nat
        ∧ App.currentFrameIdx (App.handleDeleteFrame s)
          = Z.max 0 (App.currentFrameIdx s - 1)))
  (* playback tick *)
  ∧ (App.invariant (App.tick s)
     ∧ App.frames (App.tick s) = App.frames s
     ∧ App.currentFrameIdx (App.tick s)
       = (App.currentFrameIdx s + 1) `mod` Z.of_nat (length (App.frames s))).
Proof.
  intros Hinv. pose proof Hinv as [Hlen Hidx].
  assert (Hk : Z.to_nat (App.currentFrameIdx s + 1)
               = S (Z.to_nat (App.currentFrameIdx s))) by lia.
  assert (Hins : ∀ f,
    let fs := App.splice_insert (App.frames s) (App.currentFrameIdx s + 1) f in
    length fs = S (length (App.frames s))
    ∧ fs !! Z.to_nat (App.currentFrameIdx s + 1) = Some f).
  { intros f fs. split; [apply length_splice_insert|]. subst fs.
    replace (App.currentFrameIdx s + 1)
      with (Z.of_nat (S (Z.to_nat (App.currentFrameIdx s)))) by lia.
    rewrite splice_insert_at by lia. rewrite Nat2Z.id.
    rewrite lookup_app_r by (rewrite length_take; lia).
    rewrite length_take.
    by replace (_ - _)%nat with 0%nat by lia. }
  split; [|split; [|split]].
  - split; [intros now Hsz; by apply handleAddFrame_Some|].
    intros now s' Hadd.
    destruct (handleAddFrame_frames now s s' Hadd) as (l & _ & Hfr & Hi & _).
    destruct (Hins {| App.id := App.frameId now; App.pixels := l |}) as [Hl Hat].
    rewrite Hfr, Hi. split; [|split; [done|split; [done|]]].
    + split; rewrite Hfr, ?Hi, Hl; lia.
    + by rewrite Hat.
  - intros now.
    destruct (invariant_current s Hinv) as (cur & _ & Hcur).
    unfold App.handleDuplicateFrame. rewrite Hcur. simpl.
    eexists. split; [done|]. simpl.
    match goal with |- context [App.splice_insert _ _ ?f] =>
      destruct (Hins f) as [Hl Hat] end.
    split; [|split; [done|split; [done|]]].
    + split; simpl; rewrite Hl; lia.
    + by rewrite Hat.
  - destruct (decide (length (App.frames s) = 1%nat)) as [H1|H1].
    + assert (App.handleDeleteFrame s = s) as ->.
      { unfold App.handleDeleteFrame. by rewrite bool_decide_eq_true_2 by lia. }
      split; [done|]. split; [done|]. lia.
    + destruct (handleDeleteFrame_frames s Hinv ltac:(lia)) as [Hfr Hi].
      assert (Hdl : length (App.frames (App.handleDeleteFrame s))
                    = (length (App.frames s) - 1)%nat).
      { rewrite Hfr. apply length_delete, lookup_lt_is_Some_2. lia. }
      split; [|split; [done|by intros _]].
      split; rewrite ?Hi, Hdl; lia.
  - unfold App.tick, App.invariant. simpl.
    rewrite Z.rem_mod_nonneg by lia.
    pose proof (Z.mod_pos_bound (App.currentFrameIdx s + 1)
                  (Z.of_nat (length (App.frames s))) ltac:(lia)).
    repeat split; lia.
Qed.

Lemma frame_invariant_preserved_witness :
  App.invariant (App.handleDeleteFrame App.initial)
  ∧ App.invariant (App.tick App.initial).
Proof.
  assert (Hinit : App.invariant App.initial).
  { split; simpl; lia. }
  destruct (frame_invariant_preserved App.initial Hinit)
    as (_ & _ & (Hdel & _) & (Htick & _)).
  by split.
Defined.

(** C6. [handleDuplicateFrame] inserts, right after the current frame, a
    frame whose array holds the same pixels as the current frame's array at
    that moment, and makes it the current frame.  The array is a new object:
    an assignment to a pixel of either array leaves the other array as it
    was, and a pencil or eraser edit of the duplicate through the canvas
    leaves the original frame and its pixels as they were. *)
Theorem handleDuplicateFrame_copy (s : App.State) (now : Z) :
  App.invariant s → App.store_ok s →
  let k := Z.to_nat (App.currentFrameIdx s) in
  ∃ s' orig dup,
    App.handleDuplicateFrame now s = Some s'
    ∧ App.frames s !! k = Some orig
    ∧ App.frames s' = take (S k) (App.frames s) ++ dup :: drop (S k) (App.frames s)
    ∧ App.frames s' !! k = Some orig
    ∧ App.frames s' !! S k = Some dup
    ∧ App.currentFrameIdx s' = App.currentFrameIdx s + 1
    (* equal pixels *)
    ∧ App.contents (App.heap s') (App.pixels dup)
      = App.contents (App.heap s) (App.pixels orig)
    ∧ App.contents (App.heap s') (App.pixels orig)
      = App.contents (App.heap s) (App.pixels orig)
    (* two array objects *)
    ∧ App.pixels dup ≠ App.pixels orig
    ∧ (∀ i v,
         App.contents (App.store (App.heap s') (App.pixels dup) i v) (App.pixels dup)
         = JsArray.set (App.contents (App.heap s') (App.pixels dup)) i v
         ∧ App.contents (App.store (App.heap s') (App.pixels dup) i v) (App.pixels orig)
           = App.contents (App.heap s') (App.pixels orig))
    ∧ (∀ i v,
         App.contents (App.store (App.heap s') (App.pixels orig) i v) (App.pixels orig)
         = JsArray.set (App.contents (App.heap s') (App.pixels orig)) i v
         ∧ App.contents (App.store (App.heap s') (App.pixels orig) i v) (App.pixels dup)
           = App.contents (App.heap s') (App.pixels dup))
    (* an edit of the duplicate on the canvas *)
    ∧ (∀ tool color point s'',
         App.drawOnCurrent tool color point s' = Some s'' →
         App.frames s'' !! k = Some orig
         ∧ App.contents (App.heap s'') (App.pixels orig)
           = App.contents (App.heap s) (App.pixels orig)).
Proof.
  intros Hinv Hok k. pose proof Hinv as [Hlen Hidx].
  destruct (invariant_current s Hinv) as (orig & Horig & Hcur). fold k in Horig.
  assert (Horig_ok : is_Some (App.heap s !! App.pixels orig)).
  { apply Hok. by eapply list_elem_of_lookup_2. }
  set (a := App.contents (App.heap s) (App.pixels orig)).
  set (l := (App.alloc (App.heap s) a).1).
  set (hp := (App.alloc (App.heap s) a).2).
  set (dup := {| App.id := App.frameId now; App.pixels := l |}).
  assert (Hl : App.heap s !! l = None) by apply alloc_fresh.
  assert (Hne : l ≠ App.pixels orig).
  { intros Heq. rewrite Heq in Hl. destruct Horig_ok as [? ?]. congruence. }
  assert (Hfr : App.splice_insert (App.frames s) (App.currentFrameIdx s + 1) dup
                = take (S k) (App.frames s) ++ dup :: drop (S k) (App.frames s)).
  { replace (App.currentFrameIdx s + 1) with (Z.of_nat (S k)) by lia.
    apply splice_insert_at. lia. }
  assert (Hk : (k < length (App.frames s))%nat) by lia.
  exists {| App.heap := hp; App.size := App.size s;
            App.frames := App.splice_insert (App.frames s)
                            (App.currentFrameIdx s + 1) dup;
            App.currentFrameIdx := App.currentFrameIdx s + 1 |}, orig, dup.
  assert (Hat_k : (take (S k) (App.frames s) ++ dup :: drop (S k) (App.frames s))
                    !! k = Some orig).
  { rewrite lookup_app_l by (rewrite length_take; lia).
    rewrite lookup_take_lt by lia. done. }
  assert (Hat_Sk : (take (S k) (App.frames s) ++ dup :: drop (S k) (App.frames s))
                     !! S k = Some dup).
  { rewrite lookup_app_r by (rewrite length_take; lia).
    rewrite length_take. by replace (_ - _)%nat with 0%nat by lia. }
  assert (Hdup_c : App.contents hp l = a) by apply contents_alloc_new.
  assert (Horig_c : App.contents hp (App.pixels orig) = a)
    by by apply contents_alloc_old.
  simpl. rewrite Hfr.
  split; [|split; [done|split; [done|split; [done|split; [done|split; [done|]]]]]].
  { unfold App.handleDuplicateFrame. rewrite Hcur. simpl. by rewrite <- Hfr. }
  split; [done|]. split; [done|]. split; [done|].
  split; [|split].
  - intros i v. split.
    + apply contents_store_same. subst hp l. simpl. by rewrite lookup_insert_eq.
    + by apply contents_store_other.
  - intros i v. split.
    + apply contents_store_same. subst hp. simpl.
      rewrite lookup_insert_ne by done. done.
    + by apply contents_store_other.
  - intros tool color point s''. unfold App.drawOnCurrent. simpl.
    rewrite decide_True by lia.
    replace (Z.to_nat (App.currentFrameIdx s + 1)) with (S k) by lia.
    rewrite Hat_Sk. simpl. unfold App.handleUpdatePixels. simpl.
    rewrite decide_True by lia.
    replace (Z.to_nat (App.currentFrameIdx s + 1)) with (S k) by lia.
    rewrite Hat_Sk. simpl. intros [= <-]. simpl. split.
    + rewrite list_lookup_insert_ne by lia. done.
    + etrans; [|exact Horig_c].
      apply (contents_alloc_old hp _ (App.pixels orig)).
      subst hp. simpl. rewrite lookup_insert_ne by done. done.
Qed.

Lemma handleDuplicateFrame_copy_witness :
  ∃ s' orig dup,
    App.handleDuplicateFrame 1762146000000 App.initial = Some s'
    ∧ App.frames s' !! 0%nat = Some orig
    ∧ App.frames s' !! 1%nat = Some dup
    ∧ App.pixels dup ≠ App.pixels orig
    ∧ App.contents (App.heap s') (App.pixels dup)
      = App.contents (App.heap s') (App.pixels orig).
Proof.
  assert (Hinit : App.invariant App.initial) by (split; simpl; lia).
  assert (Hok : App.store_ok App.initial).
  { intros f Hf. apply list_elem_of_singleton in Hf as ->. simpl.
    rewrite lookup_insert_eq. by eexists. }
  destruct (handleDuplicateFrame_copy App.initial 1762146000000 Hinit Hok)
    as (s' & orig & dup & Hdup & _ & _ & H0 & H1 & _ & Hc1 & Hc2 & Hne & _).
  exists s', orig, dup. repeat split; try done. by rewrite Hc1, Hc2.
Defined.

(** *** Frame ids *)

Section FrameIds.
Import App.

Lemma frameId_inj (a b : Z) : frameId a = frameId b → a = b.
Proof.
  unfold frameId. intros Heq.
  apply (inj (String.app "frame-")) in Heq. by apply (inj pretty) in Heq.
Qed.

Lemma fmap_splice_insert {A B} (f : A → B) (a : list A) (start : Z) (item : A) :
  f <$> splice_insert a start item = splice_insert (f <$> a) start (f item).
Proof.
  unfold splice_insert. rewrite length_fmap.
  by rewrite fmap_app, fmap_cons, fmap_take, fmap_drop.
Qed.

Lemma ids_created (now : Z) (s s' : State) :
  handleAddFrame now s = Some s' ∨ handleDuplicateFrame now s = Some s' →
  ids s' = splice_insert (ids s) (currentFrameIdx s + 1) (frameId now).
Proof.
  unfold ids. intros [H|H].
  - destruct (handleAddFrame_frames now s s' H) as (l & _ & -> & _).
    by rewrite fmap_splice_insert.
  - destruct (handleDuplicateFrame_frames now s s' H) as (c & _ & _ & -> & _).
    by rewrite fmap_splice_insert.
Qed.

Lemma ids_created_NoDup (now : Z) (s s' : State) :
  handleAddFrame now s = Some s' ∨ handleDuplicateFrame now s = Some s' →
  frameId now ∉ ids s → NoDup (ids s) → NoDup (ids s').
Proof.
  intros H Hnew Hnd. rewrite (ids_created now s s' H), splice_insert_perm.
  by apply NoDup_cons.
Qed.

Lemma ids_handleDeleteFrame (s : State) :
  ids (handleDeleteFrame s) `sublist_of` ids s.
Proof.
  unfold ids, handleDeleteFrame. case_bool_decide; [done|]. simpl.
  apply fmap_sublist, filter_from_sublist.
Qed.

Lemma ids_handleUpdatePixels (l : loc) (s s' : State) :
  handleUpdatePixels l s = Some s' → ids s' = ids s.
Proof.
  unfold handleUpdatePixels, ids. case_decide; [|done].
  destruct (frames s !! _) as [old|] eqn:Hold; [|done]. simpl.
  intros [= <-]. simpl. rewrite list_fmap_insert. simpl.
  apply list_insert_id. by rewrite list_lookup_fmap, Hold.
Qed.

Lemma ids_drawOnCurrent tool color point (s s' : State) :
  drawOnCurrent tool color point s = Some s' → ids s' = ids s.
Proof.
  unfold drawOnCurrent.
  destruct (if decide (0 <= currentFrameIdx s) then _ else _) as [cur|];
    [|done].
  simpl. intros H. by apply ids_handleUpdatePixels in H.
Qed.

(** Along a run whose clock advances, every id is the id of a reading up to
    the latest one, and no two frames share an id. *)
Lemma run_ids_NoDup (acts : list Action) :
  ∀ (s s' : State) (b : Z),
    NoDup (ids s) →
    (∀ i, i ∈ ids s → ∃ t, i = frameId t ∧ t <= b) →
    advancing b (clocks acts) →
    run acts s = Some s' →
    NoDup (ids s').
Proof.
  induction acts as [|a acts IH]; intros s s' b Hnd Hb Hadv; simpl.
  { by intros [= <-]. }
  destruct (step a s) as [s1|] eqn:Hstep; [|done]. simpl. intros Hrun.
  assert (Hcreate : ∀ now,
    handleAddFrame now s = Some s1 ∨ handleDuplicateFrame now s = Some s1 →
    b < now ∧ advancing now (clocks acts) → NoDup (ids s')).
  { intros now Hc [Hlt Hadv'].
    apply (IH s1 s' now); [| |done|done].
    - apply (ids_created_NoDup now s s1 Hc); [|done].
      intros (t & Ht & Hle)%Hb. apply frameId_inj in Ht. lia.
    - intros i. rewrite (ids_created now s s1 Hc), splice_insert_perm.
      intros [->|Hi]%elem_of_cons; [by exists now|].
      destruct (Hb i Hi) as (t & -> & Hle). exists t. split; [done|lia]. }
  assert (Hkeep : ids s1 `sublist_of` ids s →
                  advancing b (clocks acts) → NoDup (ids s')).
  { intros Hsub Hadv'. apply (IH s1 s' b); [| |done|done].
    - by apply (sublist_NoDup _ (ids s)).
    - intros i Hi. apply Hb. by apply (elem_of_sublist (ids s1)). }
  destruct a as [now|now| | |tool color point]; simpl in Hstep, Hadv.
  - apply (Hcreate now); auto.
  - apply (Hcreate now); auto.
  - injection Hstep as <-. apply Hkeep; [apply ids_handleDeleteFrame|done].
  - injection Hstep as <-. by apply Hkeep.
  - apply Hkeep; [|done]. by rewrite (ids_drawOnCurrent _ _ _ _ _ Hstep).
Qed.

End FrameIds.

(** C9, as the code has it.  A frame created by [handleAddFrame] or
    [handleDuplicateFrame] at the clock reading [now] gets the id
    [frame-<now>]; the ids of the frames already there stay as they are, in
    their order, and every other operation keeps the ids of the frames it
    keeps.  Two readings give the same id only if they are equal, so the new id
    differs from the existing ones whenever no existing frame was created at
    the same reading: along every run from the initial state in which each
    creation reads a later clock than the one before (and later than 0, the
    reading in the id of the initial frame) all ids are distinct. *)
Theorem frame_ids_from_clock :
  (∀ s now s',
     App.handleAddFrame now s = Some s' ∨ App.handleDuplicateFrame now s = Some s' →
     App.ids s' = App.splice_insert (App.ids s) (App.currentFrameIdx s + 1)
                    (App.frameId now)
     ∧ (App.frameId now ∉ App.ids s → NoDup (App.ids s) → NoDup (App.ids s')))
  ∧ (∀ a b, App.frameId a = App.frameId b ↔ a = b)
  ∧ (∀ s, App.ids (App.handleDeleteFrame s) `sublist_of` App.ids s
          ∧ App.ids (App.tick s) = App.ids s)
  ∧ (∀ tool color point s s',
       App.drawOnCurrent tool color point s = Some s' → App.ids s' = App.ids s)
  ∧ (∀ acts s,
       App.advancing 0 (App.clocks acts) →
       App.run acts App.initial = Some s →
       NoDup (App.ids s)).
Proof.
  split; [|split; [|split; [|split]]].
  - intros s now s' H. split; [by apply ids_created|by apply ids_created_NoDup].
  - intros a b. split; [apply frameId_inj|by intros ->].
  - intros s. split; [apply ids_handleDeleteFrame|done].
  - intros tool color point s s'. apply ids_drawOnCurrent.
  - intros acts s Hadv Hrun.
    apply (run_ids_NoDup acts App.initial s 0); [| |done|done].
    + apply NoDup_singleton.
    + intros i ->%list_elem_of_singleton. by exists 0.
Qed.

Lemma frame_ids_from_clock_witness :
  ∃ s, App.run [App.AddFrame 1762146000000; App.DuplicateFrame 1762146000001;
                App.Tick; App.DeleteFrame; App.AddFrame 1762146000005]
         App.initial = Some s
       ∧ NoDup (App.ids s).
Proof.
  destruct (App.run [App.AddFrame 1762146000000; App.DuplicateFrame 1762146000001;
                     App.Tick; App.DeleteFrame; App.AddFrame 1762146000005]
              App.initial) as [s|] eqn:Hrun; [|by vm_compute in Hrun].
  exists s. split; [done|].
  destruct frame_ids_from_clock as (_ & _ & _ & _ & Hall).
  refine (Hall _ s _ Hrun). simpl. lia.
Defined.

(** C9, as stated, fails: two frames added at one clock reading share their
    id. *)
Lemma frame_ids_collide :
  ∃ s1 s2,
    App.handleAddFrame 1762146000000 App.initial = Some s1
    ∧ App.handleAddFrame 1762146000000 s1 = Some s2
    ∧ App.ids s1 = ["frame-0"; "frame-1762146000000"]
    ∧ App.ids s2 = ["frame-0"; "frame-1762146000000"; "frame-1762146000000"]
    ∧ App.id <$> App.frames s2 !! Z.to_nat (App.currentFrameIdx s2)
      = Some "frame-1762146000000"
    ∧ "frame-1762146000000" ∈ App.ids s1.
Proof.
  destruct (App.handleAddFrame 1762146000000 App.initial) as [s1|] eqn:H1;
    [|by vm_compute in H1].
  destruct (App.handleAddFrame 1762146000000 s1) as [s2|] eqn:H2.
  2:{ unfold App.handleAddFrame in H1. simpl in H1. injection H1 as <-.
      by vm_compute in H2. }
  exists s1, s2.
  assert (Hi1 : App.ids s1 = ["frame-0"; "frame-1762146000000"]).
  { rewrite (ids_created _ _ _ (or_introl H1)). reflexivity. }
  assert (Hi2 : App.ids s2
                = ["frame-0"; "frame-1762146000000"; "frame-1762146000000"]).
  { rewrite (ids_created _ _ _ (or_introl H2)), Hi1.
    destruct (handleAddFrame_frames _ _ _ H1) as (_ & _ & _ & -> & _).
    reflexivity. }
  split; [done|]. split; [done|]. split; [done|]. split; [done|]. split.
  - destruct (handleAddFrame_frames _ _ _ H2) as (l & _ & _ & Hc & _).
    destruct (handleAddFrame_frames _ _ _ H1) as (_ & _ & _ & Hc1 & _).
    rewrite Hc, Hc1. simpl.
    rewrite <- list_lookup_fmap. fold (App.ids s2). by rewrite Hi2.
  - rewrite Hi1. set_solver.
Qed.

(** *** The states of a run *)

Section Runs.
Import App.

Lemma initial_invariant : invariant initial ∧ store_ok initial.
Proof.
  split; [split; simpl; lia|].
  intros f Hf. apply list_elem_of_singleton in Hf as ->. simpl.
  rewrite lookup_insert_eq. by eexists.
Qed.

Lemma splice_insert_invariant (s : State) (f : Frame) (hp : gmap loc PixelGrid) :
  invariant s →
  invariant {| heap := hp; size := size s;
               frames := splice_insert (frames s) (currentFrameIdx s + 1) f;
               currentFrameIdx := currentFrameIdx s + 1 |}.
Proof.
  intros [Hlen Hidx]. split; simpl; rewrite length_splice_insert; lia.
Qed.

Lemma splice_insert_store_ok (s : State) (a : PixelGrid) (i : string) (k : Z) :
  store_ok s →
  store_ok {| heap := (alloc (heap s) a).2; size := size s;
              frames := splice_insert (frames s) k
                          {| id := i; pixels := (alloc (heap s) a).1 |};
              currentFrameIdx := k |}.
Proof.
  intros Hok f. simpl. rewrite splice_insert_perm.
  intros [->|Hf]%elem_of_cons; simpl.
  - rewrite lookup_insert_eq. by eexists.
  - apply lookup_insert_is_Some'. right. by apply Hok.
Qed.

Lemma step_invariant (a : Action) (s s' : State) :
  invariant s → step a s = Some s' → invariant s'.
Proof.
  intros Hinv. pose proof Hinv as [Hlen Hidx].
  destruct a as [now|now| | |tool color point]; simpl.
  - unfold handleAddFrame.
    destruct (createEmptyGrid _ _) as [grid|]; [|done]. simpl.
    intros [= <-]. by apply splice_insert_invariant.
  - unfold handleDuplicateFrame.
    destruct (if decide (0 <= currentFrameIdx s) then _ else _) as [cur|];
      [|done].
    simpl. intros [= <-]. by apply splice_insert_invariant.
  - intros [= <-].
    destruct (decide (length (frames s) ≤ 1)%nat) as [H1|H1].
    + unfold handleDeleteFrame. by rewrite bool_decide_eq_true_2.
    + destruct (handleDeleteFrame_frames s Hinv ltac:(lia)) as [Hfr Hi].
      split; rewrite Hfr, ?Hi, length_delete by (apply lookup_lt_is_Some_2; lia);
        lia.
  - intros [= <-]. unfold tick. split; simpl; [done|].
    rewrite Z.rem_mod_nonneg by lia. apply Z.mod_pos_bound. lia.
  - unfold drawOnCurrent.
    destruct (if decide (0 <= currentFrameIdx s) then _ else _) as [cur|];
      [|done].
    simpl. unfold handleUpdatePixels. simpl. case_decide; [|done].
    destruct (frames s !! _) as [old|]; [|done]. simpl. intros [= <-].
    split; simpl; rewrite length_insert; lia.
Qed.

Lemma step_store_ok (a : Action) (s s' : State) :
  store_ok s → step a s = Some s' → store_ok s'.
Proof.
  intros Hok.
  destruct a as [now|now| | |tool color point]; simpl.
  - unfold handleAddFrame.
    destruct (createEmptyGrid _ _) as [grid|]; [|done]. simpl.
    intros [= <-]. by apply (splice_insert_store_ok s grid).
  - unfold handleDuplicateFrame.
    destruct (if decide (0 <= currentFrameIdx s) then _ else _) as [cur|];
      [|done].
    simpl. intros [= <-]. by apply (splice_insert_store_ok s).
  - intros [= <-]. unfold handleDeleteFrame. case_bool_decide; [done|].
    intros f Hf. simpl in *. apply Hok.
    by apply (elem_of_sublist _ _ _ Hf), filter_from_sublist.
  - by intros [= <-].
  - unfold drawOnCurrent.
    destruct (if decide (0 <= currentFrameIdx s) then _ else _) as [cur|];
      [|done].
    simpl. unfold handleUpdatePixels. simpl. case_decide; [|done].
    destruct (frames s !! _) as [old|] eqn:Hold; [|done]. simpl. intros [= <-].
    intros f Hf. simpl in *.
    apply list_elem_of_lookup in Hf as [j Hj].
    destruct (decide (j = Z.to_nat (currentFrameIdx s))) as [->|Hne].
    + rewrite list_lookup_insert_eq in Hj by by eapply lookup_lt_Some.
      injection Hj as <-. simpl. rewrite lookup_insert_eq. by eexists.
    + rewrite list_lookup_insert_ne in Hj by done.
      apply lookup_insert_is_Some'. right. apply Hok.
      by eapply list_elem_of_lookup_2.
Qed.

(** Every state that a run reaches from the initial state satisfies the
    frame-sequence invariant, and its frames refer to arrays of the store. *)
Lemma run_invariant (acts : list Action) :
  ∀ s s', invariant s → store_ok s → run acts s = Some s' →
          invariant s' ∧ store_ok s'.
Proof.
  induction acts as [|a acts IH]; intros s s' Hinv Hok; simpl.
  { by intros [= <-]. }
  destruct (step a s) as [s1|] eqn:Hstep; [|done]. simpl.
  apply IH; [by eapply step_invariant|by eapply step_store_ok].
Qed.

End Runs.

(** ** [hexToRgb] *)

Section HexFacts.
Import Hex.




End HexFacts.



(** ** The pointer handlers *)

Section CanvasFacts.
Import Canvas.

Variable Num : Type.
Variables (plus minus : Num → Num → Num).

Local Notation "'State'" := (Canvas.State Num).
Local Notation "'down'" := (handlePointerDown Num).
Local Notation "'move1'" := (handlePointerMove Num plus minus).
Local Notation "'moveAll'" := (moves Num plus minus).

Lemma handlePointerMove_inert fuel props clientX clientY point (st : State) :
  inert Num st →
  move1 fuel props clientX clientY point st = Some (st, Nothing).
Proof.
  intros [Hp Hd]. unfold handlePointerMove. by rewrite Hp, Hd.
Qed.

Lemma moves_inert fuel props (st : State) targets :
  inert Num st → moveAll fuel props st targets = Some (st, props).
Proof.
  intros Hst. revert props.
  induction targets as [|[[cx cy] pt] targets IH]; intros props; [done|].
  simpl. rewrite handlePointerMove_inert by done. simpl. apply IH.
Qed.

Lemma inGrid_true (size : Size) (p : Point) :
  inBounds size p → inGrid (width size) (height size) p = true.
Proof. intros Hp. destruct size. by apply inGrid_inBounds. Qed.

Lemma inGrid_false (size : Size) (p : Point) :
  ¬ inBounds size p → inGrid (width size) (height size) p = false.
Proof.
  intros Hp. destruct size as [w h].
  destruct (inGrid w h p) eqn:Hg; [|done]. by apply inGrid_inBounds in Hg.
Qed.

End CanvasFacts.

Section StrokePaths.

Lemma chain8_chainNear (l : list Point) : chain8 l → chainNear l.
Proof.
  induction l as [|p l IH]; [done|]. destruct l as [|q l]; [done|].
  intros [(_ & Hx & Hy) Hch]. split; [done|]. by apply IH.
Qed.

Lemma chainNear_app (l1 l2 : list Point) (a : Point) :
  chainNear (l1 ++ [a]) → chainNear (a :: l2) → chainNear ((l1 ++ [a]) ++ l2).
Proof.
  induction l1 as [|p l1 IH]; intros H1 H2.
  - simpl. destruct l2 as [|q l2]; [done|]. done.
  - destruct l1 as [|q l1].
    + simpl in *. destruct H1 as [Hpa _]. by split.
    + simpl in H1. destruct H1 as [Hpq H1]. simpl. split; [done|].
      by apply IH.
Qed.

Lemma chainNear_twice (a : Point) (l : list Point) :
  chainNear (a :: l) → chainNear (a :: a :: l).
Proof.
  intros H. split; [|done]. rewrite !Z.sub_diag. simpl. lia.
Qed.

(** The path of a stroke: it exists when every segment is within the fuel,
    starts at the point the stroke starts from, passes through every target,
    ends at the last target and never jumps. *)
Lemma strokePath_run (fuel : nat) (targets : list Point) :
  ∀ last, segmentsWithin fuel last targets →
    ∃ path, strokePath fuel last targets = Some path
            ∧ chainNear (last :: path)
            ∧ (∀ t, t ∈ targets → t ∈ path)
            ∧ list.last (last :: path) = list.last (last :: targets).
Proof.
  induction targets as [|point targets IH]; intros last Hseg.
  - exists []. by repeat split.
  - destruct Hseg as [Hfuel Hseg].
    destruct (getLinePixels_run last point)
      as (line & Hline & Hlen & Hhd & Hlast & Hch).
    destruct (IH point Hseg) as (rest & Hrest & Hnear & Hin & Hend).
    exists (line ++ rest).
    assert (Hpath : strokePath fuel last (point :: targets) = Some (line ++ rest)).
    { simpl. by rewrite (Hline fuel Hfuel), Hrest. }
    replace (mkPoint (x point) (y point)) with point in Hlast by by destruct point.
    replace (mkPoint (x last) (y last)) with last in Hhd by by destruct last.
    apply last_Some in Hlast as [line' ->].
    split; [done|]. split; [|split].
    + assert (Hfirst : chainNear ((last :: line') ++ [point])).
      { apply chain8_chainNear in Hch.
        destruct line' as [|q line']; simpl in Hhd; injection Hhd as <-.
        - simpl. rewrite !Z.sub_diag. simpl. split; [lia|done].
        - apply chainNear_twice. exact Hch. }
      change (last :: (line' ++ [point]) ++ rest)
        with (((last :: line') ++ [point]) ++ rest).
      by apply chainNear_app.
    + intros t [->|Ht]%elem_of_cons.
      * apply elem_of_app. left. apply elem_of_app. right. by left.
      * apply elem_of_app. right. by apply Hin.
    + destruct rest as [|e rest].
      * rewrite app_nil_r.
        change (last :: line' ++ [point]) with ((last :: line') ++ [point]).
        rewrite last_snoc. simpl in Hend.
        destruct targets as [|t targets]; [done|].
        change (point :: t :: targets) with ([point] ++ t :: targets) in Hend.
        rewrite last_app_cons in Hend.  rewrite last_cons_cons. done.
      * change (last :: (line' ++ [point]) ++ e :: rest)
          with ((last :: line' ++ [point]) ++ e :: rest).
        rewrite last_app_cons. rewrite last_cons_cons in Hend.
        rewrite Hend. by rewrite !last_cons_cons.
Qed.

End StrokePaths.

Section CanvasGestures.
Import Canvas.

Variable Num : Type.
Variables (plus minus : Num → Num → Num).

Local Notation "'State'" := (Canvas.State Num).
Local Notation "'down'" := (handlePointerDown Num).
Local Notation "'moveAll'" := (moves Num plus minus).

Lemma handlePointerMove_draw_strokeOver fuel tool color size pixels last point line :
  getLinePixels fuel last point = Some line →
  handlePointerMove_draw fuel tool color size pixels last point
  = Some (strokeOver tool color size line pixels).
Proof. intros Hline. unfold handlePointerMove_draw. by rewrite Hline. Qed.

Lemma strokeOver_app tool color size (l1 l2 : list Point) (g : PixelGrid) :
  strokeOver tool color size (l1 ++ l2) g
  = strokeOver tool color size l2 (strokeOver tool color size l1 g).
Proof. unfold strokeOver. apply fold_left_app. Qed.

(** Moves in the drawing state paint the path of the stroke. *)
Lemma moves_drawing (fuel : nat) (targets : list (Num * Num * Point)) :
  ∀ props (st : State) last path,
    isPanning Num st = false → isDrawing Num st = true →
    lastDrawPoint Num st = Some last →
    strokePath fuel last targets.*2 = Some path →
    ∃ st2,
      moveAll fuel props st targets
      = Some (st2, {| size := size props;
                      pixels := strokeOver (tool props) (color props)
                                  (size props) path (pixels props);
                      tool := tool props; color := color props |})
      ∧ isPanning Num st2 = false ∧ isDrawing Num st2 = true
      ∧ lastDrawPoint Num st2 = list.last (last :: targets.*2).
Proof.
  induction targets as [|[[cx cy] point] targets IH];
    intros props st last path Hp Hd Hl Hpath.
  - injection Hpath as <-. exists st. destruct props. by repeat split.
  - simpl in Hpath.
    destruct (getLinePixels fuel last point) as [line|] eqn:Hline;
      simpl in Hpath; [|done].
    match type of Hpath with context [strokePath fuel point ?l] =>
      destruct (strokePath fuel point l) as [rest|] eqn:Hrest end;
      simpl in Hpath; [|done].
    injection Hpath as <-. simpl.
    unfold handlePointerMove. rewrite Hp, Hd, Hl.
    rewrite (handlePointerMove_draw_strokeOver _ _ _ _ _ _ _ _ Hline). simpl.
    match goal with |- context [moves _ _ _ _ ?pr ?st' targets] =>
      destruct (IH pr st' point rest eq_refl eq_refl eq_refl Hrest)
        as (st2 & Hmoves & Hp2 & Hd2 & Hl2) end.
    exists st2. rewrite Hmoves. simpl. rewrite strokeOver_app.
    split; [done|]. split; [done|]. split; [done|].
    rewrite Hl2. reflexivity.
Qed.

(** Moves while panning emit nothing and keep panning. *)
Lemma moves_panning (fuel : nat) (targets : list (Num * Num * Point)) :
  ∀ props (st : State),
    isPanning Num st = true → is_Some (dragStart Num st) →
    ∃ st2,
      moveAll fuel props st targets = Some (st2, props)
      ∧ isPanning Num st2 = true ∧ is_Some (dragStart Num st2)
      ∧ isDrawing Num st2 = isDrawing Num st
      ∧ lastDrawPoint Num st2 = lastDrawPoint Num st.
Proof.
  induction targets as [|[[cx cy] point] targets IH]; intros props st Hp [d Hd].
  - exists st. by repeat split.
  - simpl. unfold handlePointerMove. rewrite Hp, Hd. destruct d as [dx0 dy0].
    simpl.
    edestruct (IH props) as (st2 & Hmoves & Hp2 & Hd2 & Hi2 & Hl2);
      [| |rewrite Hmoves; exists st2; by repeat split]; simpl; [done|by eexists].
Qed.

End CanvasGestures.

(** X2. A whole pencil or eraser gesture.  A left press on a canvas point
    [p0] in the idle state hands on the grid with [p0] drawn and starts a
    stroke; the moves that follow hand on, in the end, the first grid with
    [drawPixel] run over [p0] and the raster lines of all segments.  That path
    starts at [p0], passes through every pointer position, never jumps by more
    than one step per axis, its canvas points hold the colour of the tool and
    every other slot is as before. *)
Theorem pencil_gesture (Num : Type) (plus minus : Num → Num → Num)
    (fuel : nat) (props : Canvas.Props) (clientX clientY : Num) (p0 : Point)
    (pan0 : Num * Num) (targets : list (Num * Num * Point)) :
  Canvas.tool props = pencil ∨ Canvas.tool props = eraser →
  inBounds (Canvas.size props) p0 →
  segmentsWithin fuel p0 targets.*2 →
  ∃ path st1 st2 props2,
    strokePath fuel p0 targets.*2 = Some path
    ∧ Canvas.handlePointerDown Num fuel props 0 clientX clientY p0
        (Canvas.idle Num pan0)
      = Some (st1, Canvas.OnDraw
                     (drawPixel (Canvas.tool props) (Canvas.color props)
                        (Canvas.size props) p0 (Canvas.pixels props)))
    ∧ Canvas.moves Num plus minus fuel
        (Canvas.feed props
           (Canvas.OnDraw
              (drawPixel (Canvas.tool props) (Canvas.color props)
                 (Canvas.size props) p0 (Canvas.pixels props))))
        st1 targets
      = Some (st2, props2)
    ∧ Canvas.pixels props2
      = strokeOver (Canvas.tool props) (Canvas.color props) (Canvas.size props)
          (p0 :: path) (Canvas.pixels props)
    ∧ Canvas.lastDrawPoint Num st2 = list.last (p0 :: targets.*2)
    ∧ chainNear (p0 :: path)
    ∧ (∀ t, t ∈ targets.*2 → t ∈ path)
    ∧ (∀ p, p ∈ p0 :: path → inBounds (Canvas.size props) p →
         pixelAt (Canvas.size props) (Canvas.pixels props2) p
         = Some (paint (Canvas.tool props) (Canvas.color props)))
    ∧ (∀ i, (∀ p, p ∈ p0 :: path → inBounds (Canvas.size props) p →
               getIndex (x p) (y p) (width (Canvas.size props)) ≠ i) →
         JsArray.get (Canvas.pixels props2) i
         = JsArray.get (Canvas.pixels props) i).
Proof.
  intros Htool Hp0 Hseg.
  destruct (strokePath_run fuel targets.*2 p0 Hseg)
    as (path & Hpath & Hnear & Hin & _).
  set (g1 := drawPixel (Canvas.tool props) (Canvas.color props)
               (Canvas.size props) p0 (Canvas.pixels props)).
  set (st1 := {| Canvas.isDrawing := true; Canvas.isPanning := false;
                 Canvas.lastDrawPoint := Some p0;
                 Canvas.dragStart := None; Canvas.pan := pan0 |}
              : Canvas.State Num).
  destruct (moves_drawing Num plus minus fuel targets
              (Canvas.feed props (Canvas.OnDraw g1)) st1 p0 path
              eq_refl eq_refl eq_refl Hpath)
    as (st2 & Hmoves & _ & _ & Hlast).
  eexists path, st1, st2, _.
  split; [done|]. split; [|split; [exact Hmoves|]].
  { unfold Canvas.handlePointerDown.
    rewrite (bool_decide_eq_false_2 (0 = 1)) by done.
    rewrite (bool_decide_eq_false_2 (Canvas.tool props = move))
      by (destruct Htool as [-> | ->]; done).
    simpl. rewrite inGrid_true by done.
    subst g1 st1. destruct props as [sz px tl cl]. simpl in *.
    by destruct Htool; subst tl. }
  cbn [Canvas.pixels Canvas.size Canvas.tool Canvas.color Canvas.feed].
  split; [by rewrite strokeOver_cons|].
  split; [done|]. split; [done|]. split; [done|].
  subst g1. rewrite <- strokeOver_cons. split.
  - intros p Hp Hb. by apply strokeOver_on_line.
  - intros i Hi. by apply strokeOver_other.
Qed.

Lemma pencil_gesture_witness :
  ∃ path props2,
    strokePath 3 (mkPoint 0 0) [mkPoint 2 1; mkPoint 2 3] = Some path
    ∧ Canvas.pixels props2
      = strokeOver pencil "#ff0044" (mkSize 3 3) (mkPoint 0 0 :: path)
          (replicate 9 (Some "transparent"))
    ∧ pixelAt (mkSize 3 3) (Canvas.pixels props2) (mkPoint 2 1) = Some "#ff0044".
Proof.
  destruct (pencil_gesture Z Z.add Z.sub 3
              (Canvas.mkProps (mkSize 3 3) (replicate 9 (Some "transparent"))
                 pencil "#ff0044")
              10 10 (mkPoint 0 0) (0, 0)
              [(30, 20, mkPoint 2 1); (30, 40, mkPoint 2 3)])
    as (path & st1 & st2 & props2 & Hpath & _ & _ & Hpix & _ & _ & Hin & Hon & _).
  - by left.
  - unfold inBounds. simpl. lia.
  - vm_compute. lia.
  - exists path, props2. split; [done|]. split; [done|].
    apply Hon.
    + right. apply Hin. by left.
    + unfold inBounds. simpl. lia.
Defined.

(** X3. A click with the bucket on a canvas point never starts a stroke.  If
    the pixel holds the active colour nothing is handed on.  If it holds
    another non-empty colour [c], the grid handed on (on a grid of
    [width * height] cells) has the active colour on the canvas points that
    are reachable from the click through pixels of colour [c], and every other
    canvas point as before.  If the slot is a hole or the empty string, the
    grid does not change. *)
Theorem bucket_click (Num : Type) (props : Canvas.Props)
    (clientX clientY : Num) (point : Point) (st : Canvas.State Num) :
  Canvas.tool props = bucket →
  inBounds (Canvas.size props) point →
  let st' := {| Canvas.isDrawing := false;
                Canvas.isPanning := Canvas.isPanning Num st;
                Canvas.lastDrawPoint := Some point;
                Canvas.dragStart := Canvas.dragStart Num st;
                Canvas.pan := Canvas.pan Num st |} in
  let click fuel :=
    Canvas.handlePointerDown Num fuel props 0 clientX clientY point st in
  (pixelAt (Canvas.size props) (Canvas.pixels props) point
   = Some (Canvas.color props) →
   Canvas.color props ≠ "" →
   ∀ fuel, click fuel = Some (st', Canvas.Nothing))
  ∧ (∀ c, pixelAt (Canvas.size props) (Canvas.pixels props) point = Some c →
       c ≠ "" → c ≠ Canvas.color props →
       Z.of_nat (length (Canvas.pixels props))
       = width (Canvas.size props) * height (Canvas.size props) →
       ∃ out,
         (∀ fuel, (floodFuel (width (Canvas.size props))
                     (height (Canvas.size props)) ≤ fuel)%nat →
            click fuel = Some (st', Canvas.OnDraw out))
         ∧ Z.of_nat (length out)
           = width (Canvas.size props) * height (Canvas.size props)
         ∧ ∀ p, inBounds (Canvas.size props) p →
             (reachable (Canvas.size props) (Canvas.pixels props) c point p →
                pixelAt (Canvas.size props) out p = Some (Canvas.color props))
             ∧ (¬ reachable (Canvas.size props) (Canvas.pixels props) c point p →
                pixelAt (Canvas.size props) out p
                = pixelAt (Canvas.size props) (Canvas.pixels props) p))
  ∧ (pixelAt (Canvas.size props) (Canvas.pixels props) point = None
     ∨ pixelAt (Canvas.size props) (Canvas.pixels props) point = Some "" →
     ∀ fuel, ∃ out,
       click fuel = Some (st', out)
       ∧ Canvas.pixels (Canvas.feed props out) = Canvas.pixels props).
Proof.
  intros Htool Hin st' click.
  assert (Hclick : ∀ fuel, click fuel
    = let targetColor :=
        Canvas.orTransparent (pixelAt (Canvas.size props) (Canvas.pixels props) point) in
      if bool_decide (targetColor ≠ Canvas.color props) then
        filled ← floodFill fuel (Canvas.pixels props) point targetColor
                   (Canvas.color props) (Canvas.size props);
        Some (st', Canvas.OnDraw filled)
      else Some (st', Canvas.Nothing)).
  { intros fuel. unfold click, Canvas.handlePointerDown.
    rewrite (bool_decide_eq_false_2 (0 = 1)) by done.
    rewrite Htool. simpl. by rewrite inGrid_true. }
  split; [|split].
  - intros Hpix Hne fuel. rewrite Hclick, Hpix. simpl.
    rewrite (bool_decide_eq_false_2 (Canvas.color props = "")) by done.
    by rewrite bool_decide_eq_false_2 by (by intros ?).
  - intros c Hpix Hc Hne Hlen.
    destruct (floodFill_region (Canvas.pixels props) (Canvas.size props) point
                c (Canvas.color props) Hlen Hin Hpix ltac:(congruence))
      as (out & Hout & Hlen' & Hcells).
    exists out. split; [|done].
    intros fuel Hfuel. rewrite Hclick, Hpix. simpl.
    rewrite (bool_decide_eq_false_2 (c = "")) by done.
    rewrite bool_decide_eq_true_2 by done. by rewrite (Hout fuel Hfuel).
  - intros Hpix fuel. rewrite Hclick.
    assert (Htarget : Canvas.orTransparent
                        (pixelAt (Canvas.size props) (Canvas.pixels props) point)
                      = "transparent") by (by destruct Hpix as [-> | ->]).
    rewrite Htarget. simpl. case_bool_decide; [|by eexists].
    rewrite floodFill_guards; [by eexists|].
    right. right. right. unfold pixelAt in Hpix.
    destruct Hpix as [-> | ->]; done.
Qed.

Lemma bucket_click_witness :
  ∃ out,
    Canvas.handlePointerDown Z 17 
      (Canvas.mkProps (mkSize 2 1) [Some "#000000"; Some "#ffffff"] bucket "#ff0044")
      0 5 5 (mkPoint 0 0) (Canvas.idle Z (0, 0))
    = Some ({| Canvas.isDrawing := false; Canvas.isPanning := false;
               Canvas.lastDrawPoint := Some (mkPoint 0 0);
               Canvas.dragStart := None; Canvas.pan := (0, 0) |},
            Canvas.OnDraw out)
    ∧ pixelAt (mkSize 2 1) out (mkPoint 0 0) = Some "#ff0044".
Proof.
  destruct (bucket_click Z
              (Canvas.mkProps (mkSize 2 1) [Some "#000000"; Some "#ffffff"]
                 bucket "#ff0044")
              5 5 (mkPoint 0 0) (Canvas.idle Z (0, 0)) eq_refl)
    as (_ & Hfill & _).
  { unfold inBounds. simpl. lia. }
  destruct (Hfill "#000000") as (out & Hout & _ & Hcells); try done.
  exists out. split.
  - apply Hout. vm_compute. lia.
  - apply (Hcells (mkPoint 0 0)).
    + unfold inBounds. simpl. lia.
    + constructor.
Defined.

(** X4. A press with the picker never hands on a grid.  It reports a colour
    exactly when the left button is pressed on a canvas point whose pixel is a
    non-empty string other than ['transparent'], and the colour it reports is
    that pixel. *)
Theorem picker_press (Num : Type) (fuel : nat) (props : Canvas.Props)
    (button : Z) (clientX clientY : Num) (point : Point)
    (st : Canvas.State Num) :
  Canvas.tool props = picker →
  ∃ st' out,
    Canvas.handlePointerDown Num fuel props button clientX clientY point st
    = Some (st', out)
    ∧ (∀ g, out ≠ Canvas.OnDraw g)
    ∧ Canvas.pixels (Canvas.feed props out) = Canvas.pixels props
    ∧ (∀ c, out = Canvas.OnPickColor c ↔
            button = 0 ∧ inBounds (Canvas.size props) point
            ∧ pixelAt (Canvas.size props) (Canvas.pixels props) point = Some c
            ∧ c ≠ "" ∧ c ≠ "transparent").
Proof.
  intros Htool. unfold Canvas.handlePointerDown. rewrite Htool.
  rewrite (bool_decide_eq_false_2 (picker = move)) by done.
  rewrite orb_false_r.
  destruct (decide (button = 1)) as [->|H1].
  { simpl. eexists _, _. split; [done|]. repeat split; try done.
    intros [? _]. done. }
  rewrite (bool_decide_eq_false_2 (button = 1)) by done.
  destruct (decide (button = 0)) as [->|H0].
  2:{ rewrite (bool_decide_eq_false_2 (button = 0)) by done.
      eexists _, _. split; [done|]. repeat split; try done.
      intros [? _]. done. }
  simpl.
  destruct (decide (inBounds (Canvas.size props) point)) as [Hin|Hout].
  2:{ rewrite inGrid_false by done.
      eexists _, _. split; [done|]. repeat split; try done.
      intros (_ & ? & _). done. }
  rewrite inGrid_true by done. unfold pixelAt.
  destruct (JsArray.get _ _) as [c|] eqn:Hc; simpl.
  2:{ eexists _, _. split; [done|]. repeat split; try done.
      intros (_ & _ & ? & _). done. }
  destruct (decide (c = "")) as [->|Hne].
  { simpl. eexists _, _. split; [done|]. repeat split; try done.
    intros (_ & _ & [= <-] & ? & _). done. }
  rewrite (bool_decide_eq_true_2 (c ≠ "")) by done. simpl.
  destruct (decide (c = "transparent")) as [->|Hnt].
  { simpl. eexists _, _. split; [done|]. repeat split; try done.
    intros (_ & _ & [= <-] & _ & ?). done. }
  rewrite (bool_decide_eq_true_2 (c ≠ "transparent")) by done.
  eexists _, _. split; [done|]. split; [done|]. split; [done|].
  intros c0. split.
  - intros [= <-]. by repeat split; try apply Hin.
  - intros (_ & _ & [= <-] & _). done.
Qed.

Lemma picker_press_witness :
  ∃ st',
    Canvas.handlePointerDown Z 0
      (Canvas.mkProps (mkSize 2 1) [Some "transparent"; Some "#41a6f6"]
         picker "#000000")
      0 7 7 (mkPoint 1 0) (Canvas.idle Z (0, 0))
    = Some (st', Canvas.OnPickColor "#41a6f6").
Proof.
  destruct (picker_press Z 0
              (Canvas.mkProps (mkSize 2 1) [Some "transparent"; Some "#41a6f6"]
                 picker "#000000")
              0 7 7 (mkPoint 1 0) (Canvas.idle Z (0, 0)) eq_refl)
    as (st' & out & Hdown & _ & _ & Hpick).
  exists st'. rewrite Hdown. do 2 f_equal. apply Hpick.
  repeat split; try done; unfold inBounds; simpl; lia.
Defined.

(** X5. Presses that start no stroke.  From the idle state, after a press
    with the bucket or the picker, with a button other than the left one, or
    outside the canvas (the move tool and the middle button, which pan,
    apart), pointer moves hand nothing on and change nothing; the same holds
    after every pointer-up. *)
Theorem press_without_stroke (Num : Type) (plus minus : Num → Num → Num)
    (fuel : nat) (props : Canvas.Props) (button : Z) (clientX clientY : Num)
    (point : Point) (pan0 : Num * Num) (st' : Canvas.State Num)
    (out : Canvas.Output) :
  Canvas.handlePointerDown Num fuel props button clientX clientY point
    (Canvas.idle Num pan0) = Some (st', out) →
  button ≠ 1 → Canvas.tool props ≠ move →
  Canvas.tool props = bucket ∨ Canvas.tool props = picker ∨ button ≠ 0
  ∨ ¬ inBounds (Canvas.size props) point →
  (∀ fuel' props' targets,
     Canvas.moves Num plus minus fuel' props' st' targets = Some (st', props'))
  ∧ (∀ st fuel' props' targets,
       Canvas.moves Num plus minus fuel' props' (Canvas.handlePointerUp Num st)
         targets
       = Some (Canvas.handlePointerUp Num st, props')).
Proof.
  intros Hdown H1 Hmove Hcase. split.
  2:{ intros st fuel' props' targets. by apply moves_inert. }
  intros fuel' props' targets. apply moves_inert.
  revert Hdown. unfold Canvas.handlePointerDown.
  rewrite (bool_decide_eq_false_2 (button = 1)) by done.
  rewrite (bool_decide_eq_false_2 (Canvas.tool props = move)) by done.
  simpl. case_bool_decide as H0; [|by intros [= <- _]].
  destruct (inGrid _ _ point) eqn:Hg; [|by intros [= <- _]].
  destruct Hcase as [Ht|[Ht|[?|Hout]]]; [| |done|].
  - rewrite Ht. case_bool_decide.
    + destruct (floodFill _ _ _ _ _ _); simpl; [|done]. by intros [= <- _].
    + by intros [= <- _].
  - rewrite Ht. destruct (Canvas.opaque _); by intros [= <- _].
  - by rewrite inGrid_false in Hg.
Qed.

Lemma press_without_stroke_witness :
  Canvas.moves Z Z.add Z.sub 5
    (Canvas.mkProps (mkSize 2 2) (replicate 4 (Some "transparent")) pencil "#000000")
    (Canvas.idle Z (0, 0)) [(1, 1, mkPoint 0 0); (9, 9, mkPoint 1 1)]
  = Some (Canvas.idle Z (0, 0),
          Canvas.mkProps (mkSize 2 2) (replicate 4 (Some "transparent"))
            pencil "#000000").
Proof.
  apply (press_without_stroke Z Z.add Z.sub 5
           (Canvas.mkProps (mkSize 2 2) (replicate 4 (Some "transparent"))
              pencil "#000000")
           0 50 50 (mkPoint 5 5) (0, 0) (Canvas.idle Z (0, 0)) Canvas.Nothing).
  - reflexivity.
  - done.
  - done.
  - right. right. right. unfold inBounds. simpl. lia.
Defined.

(** X6. Panning never draws.  After a press with the middle button or with
    the move tool, in whatever state, pointer moves hand nothing on, whatever
    the tool and the grid then are, and a stroke that was under way keeps its
    last point. *)
Theorem panning_never_draws (Num : Type) (plus minus : Num → Num → Num)
    (fuel : nat) (props : Canvas.Props) (button : Z) (clientX clientY : Num)
    (point : Point) (st : Canvas.State Num) :
  button = 1 ∨ Canvas.tool props = move →
  ∃ st1,
    Canvas.handlePointerDown Num fuel props button clientX clientY point st
    = Some (st1, Canvas.Nothing)
    ∧ Canvas.pan Num st1 = Canvas.pan Num st
    ∧ ∀ fuel' props' targets, ∃ st2,
        Canvas.moves Num plus minus fuel' props' st1 targets = Some (st2, props')
        ∧ Canvas.isPanning Num st2 = true
        ∧ Canvas.lastDrawPoint Num st2 = Canvas.lastDrawPoint Num st.
Proof.
  intros Hpan. unfold Canvas.handlePointerDown.
  assert (bool_decide (button = 1) || bool_decide (Canvas.tool props = move)
          = true) as ->.
  { apply orb_true_iff. rewrite !bool_decide_eq_true. done. }
  eexists. split; [done|]. split; [done|].
  intros fuel' props' targets.
  edestruct (moves_panning Num plus minus fuel' targets props')
    as (st2 & Hmoves & Hp & _ & _ & Hl); [| |exists st2; by rewrite Hmoves];
    simpl; [done|by eexists].
Qed.

Lemma panning_never_draws_witness :
  ∃ st2,
    Canvas.moves Z Z.add Z.sub 5
      (Canvas.mkProps (mkSize 2 2) (replicate 4 (Some "transparent")) pencil "#000000")
      {| Canvas.isDrawing := false; Canvas.isPanning := true;
         Canvas.lastDrawPoint := None; Canvas.dragStart := Some (3, 4);
         Canvas.pan := (0, 0) |}
      [(5, 5, mkPoint 0 0); (9, 2, mkPoint 1 1)]
    = Some (st2, Canvas.mkProps (mkSize 2 2) (replicate 4 (Some "transparent"))
                   pencil "#000000")
    ∧ Canvas.isPanning Z st2 = true.
Proof.
  destruct (panning_never_draws Z Z.add Z.sub 5
              (Canvas.mkProps (mkSize 2 2) (replicate 4 (Some "transparent"))
                 pencil "#000000")
              1 3 4 (mkPoint 0 0) (Canvas.idle Z (0, 0)) (or_introl eq_refl))
    as (st1 & Hdown & _ & Hmoves).
  injection Hdown as <-.
  destruct (Hmoves 5%nat
              (Canvas.mkProps (mkSize 2 2) (replicate 4 (Some "transparent"))
                 pencil "#000000")
              [(5, 5, mkPoint 0 0); (9, 2, mkPoint 1 1)])
    as (st2 & Hm & Hp & _).
  exists st2. by split.
Defined.

(** ** The other handlers of the application component *)

Section ProjectFacts.
Import App Project.


Lemma createEmptyGrid_Some (w h : Z) (grid : PixelGrid) :
  createEmptyGrid w h = Some grid →
  0 <= w * h < 2 ^ 32
  ∧ grid = replicate (Z.to_nat (w * h)) (Some "transparent")
  ∧ Z.of_nat (length grid) = w * h.
Proof.
  unfold createEmptyGrid. case_bool_decide as Hr; [|done]. intros [= <-].
  split; [done|]. split; [done|]. rewrite length_replicate. lia.
Qed.

Lemma blank_pixelAt (size : Size) (p : Point) :
  inBounds size p →
  pixelAt size (replicate (Z.to_nat (width size * height size))
                  (Some "transparent")) p
  = Some "transparent".
Proof.
  intros [Hx Hy]. unfold pixelAt, JsArray.get.
  pose proof (getIndex_range _ _ _ _ Hx Hy) as Hr.
  rewrite decide_True by lia. rewrite lookup_replicate_2 by lia. done.
Qed.

(** Arrays that were in the store are not touched by an allocation. *)
Lemma alloc_subseteq (hp : gmap loc PixelGrid) (a : PixelGrid) :
  hp ⊆ (alloc hp a).2.
Proof. simpl. apply insert_subseteq, not_elem_of_dom, is_fresh. Qed.

Lemma contents_subseteq (hp hp' : gmap loc PixelGrid) (l : loc) :
  hp ⊆ hp' → is_Some (hp !! l) → contents hp' l = contents hp l.
Proof.
  intros Hsub [a Ha]. unfold contents.
  by rewrite Ha, (lookup_weaken _ _ _ _ Ha Hsub).
Qed.

Lemma allocFrames_spec (imported : list (string * PixelGrid)) :
  ∀ hp fs hp',
    allocFrames hp imported = (fs, hp') →
    hp ⊆ hp'
    ∧ id <$> fs = imported.*1
    ∧ Forall2 (λ f a, hp' !! pixels f = Some a) fs imported.*2.
Proof.
  induction imported as [|[i a] imported IH]; intros hp fs hp'.
  { intros [= <- <-]. by repeat split. }
  cbn [allocFrames alloc].
  destruct (allocFrames (<[fresh (dom hp) := a]> hp) imported)
    as [fs2 hp2] eqn:Hrest.
  intros [= <- <-].
  destruct (IH _ _ _ Hrest) as (Hsub & Hids & Harr).
  assert (Hfresh : hp ⊆ <[fresh (dom hp) := a]> hp)
    by apply insert_subseteq, not_elem_of_dom, is_fresh.
  split; [by etrans|]. split.
  - rewrite !fmap_cons. by rewrite Hids.
  - rewrite fmap_cons. constructor; [|done]. simpl.
    apply (lookup_weaken _ _ _ _ (lookup_insert_eq hp _ a) Hsub).
Qed.

End ProjectFacts.



(** X8. Deleting right after creating.  A frame added or duplicated becomes
    the current frame, so [handleDeleteFrame] right after it removes that
    frame again: the sequence, the current index and the pixels of every
    frame are those from before the creation. *)
Theorem create_then_delete (s s1 : App.State) (now : Z) :
  App.invariant s → App.store_ok s →
  App.handleAddFrame now s = Some s1 ∨ App.handleDuplicateFrame now s = Some s1 →
  App.frames (App.handleDeleteFrame s1) = App.frames s
  ∧ App.currentFrameIdx (App.handleDeleteFrame s1) = App.currentFrameIdx s
  ∧ App.size (App.handleDeleteFrame s1) = App.size s
  ∧ ∀ f, f ∈ App.frames s →
      App.contents (App.heap (App.handleDeleteFrame s1)) (App.pixels f)
      = App.contents (App.heap s) (App.pixels f).
Proof.
  intros Hinv Hok Hcreate. pose proof Hinv as [Hlen Hidx].
  set (k := Z.to_nat (App.currentFrameIdx s)).
  assert (Hs1 : ∃ a new,
    App.heap s1 = (App.alloc (App.heap s) a).2
    ∧ App.frames s1 = take (S k) (App.frames s) ++ new :: drop (S k) (App.frames s)
    ∧ App.currentFrameIdx s1 = App.currentFrameIdx s + 1
    ∧ App.size s1 = App.size s).
  { assert (Hsplice : ∀ new,
      App.splice_insert (App.frames s) (App.currentFrameIdx s + 1) new
      = take (S k) (App.frames s) ++ new :: drop (S k) (App.frames s)).
    { intros new.
      replace (App.currentFrameIdx s + 1) with (Z.of_nat (S k)) by lia.
      apply splice_insert_at. lia. }
    destruct Hcreate as [Hadd|Hdup].
    - unfold App.handleAddFrame in Hadd.
      destruct (App.createEmptyGrid _ _) as [grid|]; [|done]. simpl in Hadd.
      injection Hadd as <-. eexists grid, _. simpl. by rewrite Hsplice.
    - destruct (handleDuplicateFrame_frames now s s1 Hdup)
        as (cur & _ & Hhp & Hfr & Hi & Hsz).
      eexists _, _. rewrite Hhp, Hfr, Hsplice. done. }
  destruct Hs1 as (a & new & Hhp & Hfr & Hi & Hsz).
  assert (Hinv1 : App.invariant s1).
  { split; rewrite Hfr, ?Hi, length_app, length_cons, length_take, length_drop;
      lia. }
  destruct (handleDeleteFrame_frames s1 Hinv1) as [Hdel Hidel].
  { rewrite Hfr, length_app, length_cons, length_take. lia. }
  assert (Hheap : App.heap (App.handleDeleteFrame s1) = App.heap s1).
  { unfold App.handleDeleteFrame. by case_bool_decide. }
  assert (Hsize : App.size (App.handleDeleteFrame s1) = App.size s1).
  { unfold App.handleDeleteFrame. by case_bool_decide. }
  split; [|split; [|split]].
  - rewrite Hdel, Hfr, Hi.
    replace (Z.to_nat (App.currentFrameIdx s + 1))
      with (length (take (S k) (App.frames s)))
      by (rewrite length_take; lia).
    rewrite delete_middle. apply take_drop.
  - rewrite Hidel, Hi. lia.
  - by rewrite Hsize.
  - intros f Hf. rewrite Hheap, Hhp.
    apply contents_alloc_old. by apply Hok.
Qed.

Lemma create_then_delete_witness :
  ∃ s1, App.handleAddFrame 1762146000000 App.initial = Some s1
        ∧ App.frames (App.handleDeleteFrame s1) = App.frames App.initial
        ∧ App.currentFrameIdx (App.handleDeleteFrame s1) = 0.
Proof.
  destruct (App.handleAddFrame 1762146000000 App.initial) as [s1|] eqn:Hadd;
    [|by vm_compute in Hadd].
  exists s1. split; [done|].
  destruct (create_then_delete App.initial s1 1762146000000
              (proj1 initial_invariant) (proj2 initial_invariant)
              (or_introl Hadd)) as (Hfr & Hi & _).
  by split.
Defined.

(** X9. The frame that [handleAddFrame] creates.  It sits right after the
    old current frame with the id of the clock reading, its array is a new
    object of [width * height] cells that reads ['transparent'] at every
    canvas point, and every frame that was there keeps its array and its
    pixels. *)
Theorem handleAddFrame_blank (s s' : App.State) (now : Z) :
  App.invariant s → App.store_ok s →
  App.handleAddFrame now s = Some s' →
  let k := Z.to_nat (App.currentFrameIdx s) in
  ∃ new,
    App.frames s' = take (S k) (App.frames s) ++ new :: drop (S k) (App.frames s)
    ∧ App.id new = App.frameId now
    ∧ Z.of_nat (length (App.contents (App.heap s') (App.pixels new)))
      = width (App.size s) * height (App.size s)
    ∧ (∀ p, inBounds (App.size s) p →
         pixelAt (App.size s) (App.contents (App.heap s') (App.pixels new)) p
         = Some "transparent")
    ∧ (∀ f, f ∈ App.frames s →
         App.pixels f ≠ App.pixels new
         ∧ App.contents (App.heap s') (App.pixels f)
           = App.contents (App.heap s) (App.pixels f)).
Proof.
  intros Hinv Hok Hadd k. pose proof Hinv as [Hlen Hidx].
  unfold App.handleAddFrame in Hadd.
  destruct (App.createEmptyGrid _ _) as [grid|] eqn:Hgrid; [|done].
  apply createEmptyGrid_Some in Hgrid as (Hr & -> & Hglen).
  simpl in Hadd. injection Hadd as <-. simpl.
  eexists. split.
  { replace (App.currentFrameIdx s + 1) with (Z.of_nat (S k)) by lia.
    apply splice_insert_at. lia. }
  simpl. unfold App.contents at 1 2. rewrite lookup_insert_eq. simpl.
  split; [done|]. split; [done|]. split.
  - intros p Hp. by apply blank_pixelAt.
  - intros f Hf. specialize (Hok f Hf). split.
    + intros Heq. rewrite Heq in Hok.
      pose proof (is_fresh (dom (App.heap s))) as Hfresh.
      by apply Hfresh, elem_of_dom.
    + by apply (contents_alloc_old (App.heap s)).
Qed.

Lemma handleAddFrame_blank_witness :
  ∃ s' new,
    App.handleAddFrame 1762146000000 App.initial = Some s'
    ∧ App.frames s' !! 1%nat = Some new
    ∧ pixelAt (mkSize 32 32) (App.contents (App.heap s') (App.pixels new))
        (mkPoint 31 31) = Some "transparent".
Proof.
  destruct (App.handleAddFrame 1762146000000 App.initial) as [s'|] eqn:Hadd;
    [|by vm_compute in Hadd].
  destruct (handleAddFrame_blank App.initial s' 1762146000000
              (proj1 initial_invariant) (proj2 initial_invariant) Hadd)
    as (new & Hfr & _ & _ & Hblank & _).
  exists s', new. split; [done|]. split; [by rewrite Hfr|].
  apply Hblank. change (inBounds (mkSize 32 32) (mkPoint 31 31)).
  unfold inBounds. simpl. lia.
Defined.

(** X10. [handleNewProject] returns exactly when [width * height] of the new
    size is an array length ([Array(n)] throws otherwise), whatever the old
    state was.  The new state has the new size, one frame with the id of the
    clock reading and the index 0; the frame is blank, of [width * height]
    cells; the frame invariant holds. *)
Theorem handleNewProject_fresh (newProjectSize : Size) (now : Z) (s : App.State) :
  (is_Some (Project.handleNewProject newProjectSize now s)
   ↔ 0 <= width newProjectSize * height newProjectSize < 2 ^ 32)
  ∧ ∀ s', Project.handleNewProject newProjectSize now s = Some s' →
      App.size s' = newProjectSize
      ∧ App.ids s' = [App.frameId now]
      ∧ App.currentFrameIdx s' = 0
      ∧ Project.framePixels s' 0
        = Some (replicate
                  (Z.to_nat (width newProjectSize * height newProjectSize))
                  (Some "transparent"))
      ∧ App.invariant s' ∧ App.store_ok s' ∧ Project.sized s'.
Proof.
  unfold Project.handleNewProject. split.
  - unfold App.createEmptyGrid. case_bool_decide as Hr; simpl.
    + split; [done|]. intros _. by eexists.
    + split; [by intros [? ?]|done].
  - intros s'.
    destruct (App.createEmptyGrid _ _) as [grid|] eqn:Hgrid; [|done].
    apply createEmptyGrid_Some in Hgrid as (Hr & -> & Hglen).
    simpl. intros [= <-]. unfold Project.framePixels, App.contents.
    simpl. rewrite lookup_insert_eq. simpl.
    split; [done|]. split; [done|]. split; [done|]. split; [done|].
    split; [split; simpl; lia|]. split.
    + intros f ->%list_elem_of_singleton. simpl.
      rewrite lookup_insert_eq. by eexists.
    + intros f ->%list_elem_of_singleton. unfold App.contents. simpl.
      by rewrite lookup_insert_eq.
Qed.

Lemma handleNewProject_fresh_witness :
  ∃ s', Project.handleNewProject (mkSize 16 8) 1762146000000 App.initial = Some s'
        ∧ App.size s' = mkSize 16 8
        ∧ Project.framePixels s' 0 = Some (replicate 128 (Some "transparent")).
Proof.
  destruct (handleNewProject_fresh (mkSize 16 8) 1762146000000 App.initial)
    as [[_ Hsome] Hnew].
  destruct Hsome as [s' Hs']; [simpl; lia|].
  exists s'. destruct (Hnew s' Hs') as (Hsz & _ & _ & Hpix & _).
  by repeat split.
Defined.

(** X11. The import guard of [handleFileChange].  An import that resolved to
    no frame leaves the state as it is; otherwise the frames are replaced by
    the imported ones, ids and pixels in their order, and the first becomes
    current.  Either way the frame-sequence invariant holds afterwards. *)
Theorem handleImported_guard (importedFrames : list (string * PixelGrid))
    (s : App.State) :
  App.invariant s →
  App.invariant (Project.handleImported importedFrames s)
  ∧ (importedFrames = [] → Project.handleImported importedFrames s = s)
  ∧ (importedFrames ≠ [] →
     App.ids (Project.handleImported importedFrames s) = importedFrames.*1
     ∧ App.currentFrameIdx (Project.handleImported importedFrames s) = 0
     ∧ App.size (Project.handleImported importedFrames s) = App.size s
     ∧ ∀ k, Project.framePixels (Project.handleImported importedFrames s) k
            = importedFrames.*2 !! k).
Proof.
  intros Hinv. unfold Project.handleImported.
  destruct importedFrames as [|[i a] imported].
  { simpl. split; [done|]. split; [done|]. intros Hne. by destruct Hne. }
  rewrite bool_decide_eq_true_2 by (simpl; lia).
  destruct (Project.allocFrames (App.heap s) ((i, a) :: imported))
    as [fs hp] eqn:Halloc.
  destruct (allocFrames_spec _ _ _ _ Halloc) as (_ & Hids & Harr).
  assert (Hlen : length fs = S (length imported)).
  { rewrite <- (length_fmap App.id), Hids, length_fmap. done. }
  split; [|split; [done|]].
  - split; simpl; lia.
  - intros _. split; [done|]. split; [done|]. split; [done|].
    intros k. unfold Project.framePixels. cbn [App.frames App.heap].
    destruct (fs !! k) as [f|] eqn:Hf.
    + destruct (Forall2_lookup_l _ _ _ _ _ Harr Hf) as (b & Hb & Hlook).
      rewrite Hb. simpl. unfold App.contents. by rewrite Hlook.
    + symmetry. apply lookup_ge_None. apply lookup_ge_None in Hf.
      rewrite length_fmap. simpl. lia.
Qed.

Lemma handleImported_guard_witness :
  App.invariant (Project.handleImported [] App.initial)
  ∧ Project.handleImported [] App.initial = App.initial.
Proof.
  destruct (handleImported_guard [] App.initial (proj1 initial_invariant))
    as (Hinv & Hsame & _).
  split; [done|by apply Hsame].
Defined.

(** ** The editor *)

Section GridLengths.
Import JsArray JsArrayFacts.




End GridLengths.

Section EditorFacts.
Import App.

Variable Num : Type.
Variables (plus minus : Num → Num → Num).








End EditorFacts.



(** ** Importing a sprite sheet *)

Section ImportFacts.
Import ImportUtils.




Lemma dashFree_pretty_N_go (n : N) (s : string) :
  dashFree s → dashFree (pretty_N_go n s).
Proof.
  revert s. induction (N.lt_wf_0 n) as [n _ IH]; intros s Hs.
  assert (n = 0 ∨ 0 < n)%N as [->|Hpos] by lia.
  - by rewrite pretty_N_go_0.
  - rewrite pretty_N_go_step by done. apply IH; [by apply N.div_lt|].
    split; [|done]. unfold pretty_N_char. by repeat case_match.
Qed.

Lemma dashFree_pretty_nat (k : nat) : dashFree (pretty k).
Proof.
  unfold pretty, pretty_nat, pretty, pretty_N.
  case_decide; [by split|]. by apply dashFree_pretty_N_go.
Qed.

Lemma dashFree_no_dash (a d : string) : ¬ dashFree (a +:+ String "-" d).
Proof.
  induction a as [|c a IH]; simpl.
  - by intros [? _].
  - intros [_ ?]. by apply IH.
Qed.

(** The text after the last [-] of a string is determined by the string. *)
Lemma dash_suffix (a a' d d' : string) :
  dashFree d → dashFree d' →
  a +:+ String "-" d = a' +:+ String "-" d' → d = d'.
Proof.
  intros Hd Hd'. revert a'. induction a as [|c a IH]; intros [|c' a']; simpl.
  - by intros [= ->].
  - intros [= <- ->]. by apply dashFree_no_dash in Hd.
  - intros [= -> <-]. by apply dashFree_no_dash in Hd'.
  - intros [= <- Heq]. by apply (IH a').
Qed.

Lemma importId_inj (now now' : Z) (k k' : nat) :
  importId now k = importId now' k' → k = k'.
Proof.
  unfold importId. intros Heq.
  apply (inj (String.app "frame-")) in Heq.
  apply dash_suffix in Heq; [|apply dashFree_pretty_nat..].
  by apply (inj pretty) in Heq.
Qed.

End ImportFacts.



Lemma handleImported_ids (importedFrames : list (string * PixelGrid))
    (s : App.State) :
  importedFrames ≠ [] →
  App.ids (Project.handleImported importedFrames s) = importedFrames.*1.
Proof.
  intros Hne. unfold Project.handleImported.
  rewrite bool_decide_eq_true_2 by (destruct importedFrames; simpl; [done|lia]).
  destruct (Project.allocFrames (App.heap s) importedFrames)
    as [fs hp] eqn:Halloc.
  by destruct (allocFrames_spec _ _ _ _ Halloc) as (_ & Hids & _).
Qed.

(** X14. The ids of one import are pairwise distinct, at whatever clock
    readings the frames are pushed: the id ends in the number of the frame. *)
Theorem importSpriteSheet_ids (imgWidth imgHeight : Z) (frameSize : Size)
    (decode : ImportUtils.Draw → PixelGrid) (clock : nat → Z)
    (frames : list (string * PixelGrid)) :
  ImportUtils.importSpriteSheet imgWidth imgHeight frameSize decode clock
  = Some (ImportUtils.Resolve frames) →
  NoDup frames.*1
  ∧ ∀ s, App.invariant s → frames ≠ [] →
      NoDup (App.ids (Project.handleImported frames s)).
Proof.
  unfold ImportUtils.importSpriteSheet.
  destruct (_ && _); [done|]. destruct (_ || _); [done|]. intros [= <-].
  assert (Hnd : NoDup (imap (fun k '(x, y) =>
                               (ImportUtils.importId (clock k) k,
                                decode (ImportUtils.frameDraw imgWidth imgHeight
                                          frameSize x y)))
                         (ImportUtils.cells imgWidth imgHeight frameSize)).*1).
  { apply NoDup_alt. intros i j s.
    rewrite !list_lookup_fmap, !list_lookup_imap.
    destruct (ImportUtils.cells _ _ _ !! i) as [[xi yi]|]; [|done].
    destruct (ImportUtils.cells _ _ _ !! j) as [[xj yj]|]; [|done].
    simpl. intros Hi Hj. apply (inj Some) in Hi, Hj. rewrite <- Hj in Hi.
    by apply importId_inj in Hi. }
  split; [done|]. intros s Hinv Hne.
  by rewrite (handleImported_ids _ s Hne).
Qed.

Lemma importSpriteSheet_ids_witness :
  ∃ frames,
    ImportUtils.importSpriteSheet 4 2 (mkSize 2 2)
      (fun _ => replicate 4 (Some "transparent")) (fun _ => 1762146000000)
    = Some (ImportUtils.Resolve frames)
    ∧ NoDup frames.*1.
Proof.
  eexists. split; [reflexivity|].
  eapply (importSpriteSheet_ids 4 2 (mkSize 2 2)
            (fun _ => replicate 4 (Some "transparent"))
            (fun _ => 1762146000000)).
  reflexivity.
Defined.

(** ** Exporting *)

Section ExportFacts.
Import ExportUtils.

Lemma opaque_Some (v : option string) :
  Canvas.opaque v = true ↔ ∃ c, v = Some c ∧ c ≠ "" ∧ c ≠ "transparent".
Proof.
  destruct v as [c|]; simpl.
  - rewrite andb_true_iff, !bool_decide_eq_true. naive_solver.
  - naive_solver.
Qed.

Lemma elem_of_sheetPaint (idx : nat) (pixels : PixelGrid) (size : Size)
    (scale : Z) (r : FillRect) :
  r ∈ sheetPaint idx pixels size scale
  ↔ ∃ pIdx c, pixels !! pIdx = Some (Some c) ∧ c ≠ "" ∧ c ≠ "transparent"
              ∧ r = cellRect size scale idx pIdx c.
Proof.
  unfold sheetPaint. rewrite list_elem_of_join. split.
  - intros (l & Hr & Hl). apply elem_of_lookup_imap in Hl as (i & v & -> & Hv).
    destruct (Canvas.opaque v) eqn:Hop; [|by apply elem_of_nil in Hr].
    apply opaque_Some in Hop as (c & -> & Hc1 & Hc2).
    apply list_elem_of_singleton in Hr as ->. by exists i, c.
  - intros (pIdx & c & Hpix & Hc1 & Hc2 & ->).
    eexists. split; [|apply elem_of_lookup_imap; by exists pIdx, (Some c)].
    simpl. rewrite bool_decide_eq_true_2, bool_decide_eq_true_2 by done.
    simpl. by left.
Qed.

Lemma elem_of_sheet (frames : list PixelGrid) (size : Size) (scale : Z)
    (r : FillRect) :
  r ∈ commands (exportSpriteSheet frames size scale)
  ↔ ∃ idx pIdx c, painted frames idx pIdx c
                  ∧ r = cellRect size scale idx pIdx c.
Proof.
  unfold exportSpriteSheet. simpl. rewrite list_elem_of_join. split.
  - intros (l & Hr & Hl).
    apply elem_of_lookup_imap in Hl as (idx & pixels & -> & Hpix).
    apply elem_of_sheetPaint in Hr as (pIdx & c & Hc & Hc1 & Hc2 & ->).
    exists idx, pIdx, c. split; [|done]. by exists pixels.
  - intros (idx & pIdx & c & (pixels & Hf & Hc & Hc1 & Hc2) & ->).
    exists (sheetPaint idx pixels size scale). split.
    + apply elem_of_sheetPaint. by exists pIdx, c.
    + apply elem_of_lookup_imap. by exists idx, pixels.
Qed.

(** The coordinates of a cell of a grid of [width * height] cells. *)
Lemma getCoords_cell (size : Size) (pIdx : nat) :
  0 < width size → Z.of_nat pIdx < width size * height size →
  let p := getCoords (Z.of_nat pIdx) (width size) in
  0 <= x p < width size ∧ 0 <= y p < height size
  ∧ Z.of_nat pIdx = y p * width size + x p.
Proof.
  intros Hw Hp. unfold getCoords. simpl.
  rewrite Z.rem_mod_nonneg by lia.
  pose proof (Z.mod_pos_bound (Z.of_nat pIdx) (width size) Hw).
  pose proof (Z.div_mod (Z.of_nat pIdx) (width size) ltac:(lia)).
  split; [done|]. split; [|lia]. split; [apply Z.div_pos; lia|].
  apply Z.div_lt_upper_bound; lia.
Qed.

End ExportFacts.

(** X15. What [exportSpriteSheet] draws.  For frames of [width * height]
    cells, a positive width and a positive scale, the rectangles filled are
    exactly the [scale] x [scale] blocks of the painted cells (non-empty
    colours other than ['transparent']), in the colour of the cell; the block
    of a cell of the frame number [k] lies inside the [k]-th frame-wide part of
    the strip and inside the canvas, and the blocks of two different cells
    share no surface pixel. *)
Theorem exportSpriteSheet_blocks (frames : list PixelGrid) (size : Size)
    (scale : Z) :
  0 < width size → 0 < scale →
  Forall (fun pixels =>
            Z.of_nat (length pixels) = width size * height size) frames →
  let surface := ExportUtils.exportSpriteSheet frames size scale in
  (∀ r, r ∈ ExportUtils.commands surface ↔
        ∃ k pIdx c, ExportUtils.painted frames k pIdx c
                    ∧ r = ExportUtils.cellRect size scale k pIdx c)
  ∧ (∀ k pIdx c, ExportUtils.painted frames k pIdx c →
       let r := ExportUtils.cellRect size scale k pIdx c in
       Z.of_nat k * (width size * scale) <= ExportUtils.rectX r
       ∧ ExportUtils.rectX r + ExportUtils.rectW r
         <= (Z.of_nat k + 1) * (width size * scale)
       ∧ ExportUtils.rectX r + ExportUtils.rectW r
         <= ExportUtils.canvasWidth surface
       ∧ 0 <= ExportUtils.rectY r
       ∧ ExportUtils.rectY r + ExportUtils.rectH r
         <= ExportUtils.canvasHeight surface)
  ∧ (∀ k pIdx c k' pIdx' c' px py,
       ExportUtils.painted frames k pIdx c →
       ExportUtils.painted frames k' pIdx' c' →
       ExportUtils.covers (ExportUtils.cellRect size scale k pIdx c) px py →
       ExportUtils.covers (ExportUtils.cellRect size scale k' pIdx' c') px py →
       k = k' ∧ pIdx = pIdx').
Proof.
  intros Hw Hs Hsized surface.
  assert (Hcell : ∀ k pIdx c, ExportUtils.painted frames k pIdx c →
    (k < length frames)%nat
    ∧ Z.of_nat pIdx < width size * height size).
  { intros k pIdx c (pixels & Hf & Hc & _).
    split; [by eapply lookup_lt_Some|].
    rewrite Forall_lookup in Hsized. rewrite <- (Hsized _ _ Hf).
    apply lookup_lt_Some in Hc. lia. }
  split; [|split].
  - intros r. apply elem_of_sheet.
  - intros k pIdx c Hp. destruct (Hcell _ _ _ Hp) as [Hk Hi].
    destruct (getCoords_cell size pIdx Hw Hi) as (Hx & Hy & _).
    unfold ExportUtils.cellRect, surface, ExportUtils.exportSpriteSheet.
    cbn [ExportUtils.rectX ExportUtils.rectY ExportUtils.rectW
         ExportUtils.rectH ExportUtils.canvasWidth ExportUtils.canvasHeight].
    set (p := getCoords (Z.of_nat pIdx) (width size)) in *.
    assert (Hcol : Z.of_nat k * width size + x p + 1
                   <= width size * Z.of_nat (length frames)) by nia.
    repeat split; nia.
  - intros k pIdx c k' pIdx' c' px py Hp Hp' [Hcx Hcy] [Hcx' Hcy'].
    destruct (Hcell _ _ _ Hp) as [_ Hi]. destruct (Hcell _ _ _ Hp') as [_ Hi'].
    destruct (getCoords_cell size pIdx Hw Hi) as (Hx & Hy & Heq).
    destruct (getCoords_cell size pIdx' Hw Hi') as (Hx' & Hy' & Heq').
    unfold ExportUtils.covers, ExportUtils.cellRect in *.
    cbn [ExportUtils.rectX ExportUtils.rectY ExportUtils.rectW
         ExportUtils.rectH] in *.
    set (p := getCoords (Z.of_nat pIdx) (width size)) in *.
    set (p' := getCoords (Z.of_nat pIdx') (width size)) in *.
    assert (Hcol : Z.of_nat k * width size + x p
                   = Z.of_nat k' * width size + x p') by nia.
    assert (Hrow : y p = y p') by nia.
    assert (Hk : Z.of_nat k = Z.of_nat k') by nia.
    split; [lia|]. nia.
Qed.

Lemma exportSpriteSheet_blocks_witness :
  ExportUtils.cellRect (mkSize 2 1) 3 1 1 "#ff0044"
  ∈ ExportUtils.commands
      (ExportUtils.exportSpriteSheet
         [ [Some "transparent"; Some "#000000"];
           [Some "transparent"; Some "#ff0044"] ] (mkSize 2 1) 3).
Proof.
  destruct (exportSpriteSheet_blocks
              [ [Some "transparent"; Some "#000000"];
                [Some "transparent"; Some "#ff0044"] ] (mkSize 2 1) 3)
    as (Hin & _); [simpl; lia|lia|by repeat constructor|].
  apply Hin. exists 1%nat, 1%nat, "#ff0044". split; [|done].
  eexists. by repeat split.
Defined.

(** X16. [exportFrameAsPNG] draws what [exportSpriteSheet] draws for that
    frame alone at the same scale: the same canvas size and the same
    rectangles in the same order. *)
Theorem exportFrameAsPNG_as_sheet (pixels : PixelGrid) (size : Size) (scale : Z) :
  ExportUtils.exportFrameAsPNG pixels size scale
  = ExportUtils.exportSpriteSheet [pixels] size scale.
Proof.
  unfold ExportUtils.exportFrameAsPNG, ExportUtils.exportSpriteSheet. simpl.
  f_equal; [lia|]. rewrite app_nil_r.
  unfold ExportUtils.framePaint, ExportUtils.sheetPaint. do 2 f_equal.
Qed.

(** ** Flood fill from another start, and a second time *)

Section FloodAgain.
Import JsArrayFacts.

Lemma adjacent4_sym (p q : Point) : adjacent4 p q → adjacent4 q p.
Proof.
  unfold adjacent4, neighbors. destruct p as [px py], q as [qx qy]. simpl.
  rewrite !elem_of_cons, !elem_of_nil.
  intros [H|[H|[H|[H|[]]]]]; injection H as -> ->.
  - right; left. f_equal; lia.
  - left. f_equal; lia.
  - do 3 right; left. f_equal; lia.
  - do 2 right; left. f_equal; lia.
Qed.

Lemma reachable_trans (size : Size) (g : PixelGrid) (T : string)
    (s p q : Point) :
  reachable size g T s p → reachable size g T p q → reachable size g T s q.
Proof.
  intros Hsp Hpq. induction Hpq as [|p' q' _ IH Hadj Hin HT]; [done|].
  by apply (reachable_step _ _ _ _ p' q').
Qed.

(** Every reached point is a canvas point of the target colour from which the
    start is reached in turn, when the start is one. *)
Lemma reachable_sym (size : Size) (g : PixelGrid) (T : string) (s p : Point) :
  inBounds size s → pixelAt size g s = Some T →
  reachable size g T s p →
  inBounds size p ∧ pixelAt size g p = Some T ∧ reachable size g T p s.
Proof.
  intros Hs HT Hsp. induction Hsp as [|p q _ IH Hadj Hin HqT].
  - split; [done|]. split; [done|]. constructor.
  - destruct IH as (Hp & HpT & Hps). split; [done|]. split; [done|].
    apply (reachable_trans _ _ _ q p s); [|done].
    apply (reachable_step _ _ _ _ q p); [constructor|by apply adjacent4_sym|done..].
Qed.

(** Two grids of [width * height] cells that agree on the canvas points are
    the same. *)
Lemma pixelAt_ext (size : Size) (a b : PixelGrid) :
  0 < width size →
  Z.of_nat (length a) = width size * height size →
  Z.of_nat (length b) = width size * height size →
  (∀ p, inBounds size p → pixelAt size a p = pixelAt size b p) →
  a = b.
Proof.
  intros Hw Ha Hb Hagree. apply get_ext; [lia|]. intros i.
  destruct (decide (0 <= i < width size * height size)) as [Hi|Hi].
  - assert (Hlt : Z.of_nat (Z.to_nat i) < width size * height size) by lia.
    destruct (getCoords_cell size (Z.to_nat i) Hw Hlt) as (Hx & Hy & Heq).
    rewrite Z2Nat.id in Hx, Hy, Heq by lia.
    specialize (Hagree (getCoords i (width size)) (conj Hx Hy)).
    unfold pixelAt, getIndex in Hagree. by rewrite <- Heq in Hagree.
  - destruct (decide (0 <= i)) as [Hi0|Hi0].
    + rewrite !get_ge by lia. done.
    + unfold JsArray.get. by rewrite !decide_False by done.
Qed.

End FloodAgain.

(** X17. The start within a region does not matter.  On a grid of
    [width * height] cells, for a start on the canvas that holds the target
    colour and a second point reached from it through the target colour,
    [floodFill] returns the same grid from either of them, for a fill colour
    other than the target. *)
Theorem floodFill_start_independent (pixels : PixelGrid) (size : Size)
    (start start' : Point) (targetColor fillColor : string) :
  Z.of_nat (length pixels) = width size * height size →
  inBounds size start →
  pixelAt size pixels start = Some targetColor →
  reachable size pixels targetColor start start' →
  fillColor ≠ targetColor →
  ∃ out, ∀ fuel, (floodFuel (width size) (height size) ≤ fuel)%nat →
    floodFill fuel pixels start targetColor fillColor size = Some out
    ∧ floodFill fuel pixels start' targetColor fillColor size = Some out.
Proof.
  intros Hlen Hs HT Hreach Hne.
  destruct (reachable_sym _ _ _ _ _ Hs HT Hreach) as (Hs' & HT' & Hback).
  destruct (floodFill_region pixels size start targetColor fillColor
              Hlen Hs HT Hne) as (out & Hrun & Hlo & Hout).
  destruct (floodFill_region pixels size start' targetColor fillColor
              Hlen Hs' HT' Hne) as (out' & Hrun' & Hlo' & Hout').
  assert (Heq : out' = out).
  { apply (pixelAt_ext size); [unfold inBounds in Hs; lia|done..|].
    intros p Hp. destruct (Hout p Hp) as [Hin Hoff].
    destruct (Hout' p Hp) as [Hin' Hoff'].
    destruct (decide (pixelAt size out' p = pixelAt size out p)) as [|Hdiff];
      [done|].
    exfalso.
    assert (Hno : ¬ reachable size pixels targetColor start p).
    { intros Hr. apply Hdiff. rewrite Hin by done.
      apply Hin'. by apply (reachable_trans _ _ _ start' start p). }
    apply Hdiff. rewrite Hoff by done. apply Hoff'.
    intros Hr. apply Hno. by apply (reachable_trans _ _ _ start start' p). }
  subst out'. exists out. intros fuel Hfuel. split; auto.
Qed.

Lemma floodFill_start_independent_witness :
  ∃ out, ∀ fuel, (floodFuel 2 2 ≤ fuel)%nat →
    floodFill fuel [Some "#000000"; Some "#000000"; Some "#ffffff"; Some "#000000"]
      (mkPoint 0 0) "#000000" "#ff0044" (mkSize 2 2) = Some out
    ∧ floodFill fuel [Some "#000000"; Some "#000000"; Some "#ffffff"; Some "#000000"]
        (mkPoint 1 1) "#000000" "#ff0044" (mkSize 2 2) = Some out.
Proof.
  apply (floodFill_start_independent
           [Some "#000000"; Some "#000000"; Some "#ffffff"; Some "#000000"]
           (mkSize 2 2) (mkPoint 0 0) (mkPoint 1 1) "#000000" "#ff0044").
  - reflexivity.
  - unfold inBounds. simpl. lia.
  - reflexivity.
  - apply (reachable_step _ _ _ _ (mkPoint 1 0)).
    + apply (reachable_step _ _ _ _ (mkPoint 0 0)).
      * constructor.
      * unfold adjacent4, neighbors. simpl. by left.
      * unfold inBounds. simpl. lia.
      * reflexivity.
    + unfold adjacent4, neighbors. simpl. do 2 right. by left.
    + unfold inBounds. simpl. lia.
    + reflexivity.
  - done.
Defined.

(** X18. Filling twice is filling once.  On a grid of [width * height] cells
    and for a start on the canvas, [floodFill] returns a grid on which the same
    call (same start, target and fill colour) returns its argument. *)
Theorem floodFill_twice (pixels : PixelGrid) (size : Size)
    (start : Point) (targetColor fillColor : string) :
  Z.of_nat (length pixels) = width size * height size →
  inBounds size start →
  ∃ out,
    (∀ fuel, (floodFuel (width size) (height size) ≤ fuel)%nat →
       floodFill fuel pixels start targetColor fillColor size = Some out)
    ∧ ∀ fuel, floodFill fuel out start targetColor fillColor size = Some out.
Proof.
  intros Hlen Hs.
  destruct (decide (pixelAt size pixels start = Some targetColor)) as [HT|HT].
  - destruct (decide (fillColor = targetColor)) as [->|Hne].
    + exists pixels. split; intros fuel; intros; apply floodFill_guards; auto.
    + destruct (floodFill_region pixels size start targetColor fillColor
                  Hlen Hs HT Hne) as (out & Hrun & _ & Hout).
      exists out. split; [done|]. intros fuel. apply floodFill_guards.
      do 2 right. left. apply (Hout start Hs). constructor.
  - exists pixels. split; intros fuel; intros; apply floodFill_guards; auto.
Qed.

Lemma floodFill_twice_witness :
  ∃ out,
    (∀ fuel, (floodFuel 2 2 ≤ fuel)%nat →
       floodFill fuel [Some "#000000"; Some "#000000"; Some "#ffffff"; Some "#000000"]
         (mkPoint 0 0) "#000000" "#ff0044" (mkSize 2 2) = Some out)
    ∧ ∀ fuel, floodFill fuel out (mkPoint 0 0) "#000000" "#ff0044" (mkSize 2 2)
              = Some out.
Proof.
  apply (floodFill_twice
           [Some "#000000"; Some "#000000"; Some "#ffffff"; Some "#000000"]
           (mkSize 2 2) (mkPoint 0 0) "#000000" "#ff0044").
  - reflexivity.
  - unfold inBounds. simpl. lia.
Defined.
